(** * Obstacle-avoidance constraint of constrained_ik

    A shallow embedding of
    [constrained_ik/src/constraints/avoid_obstacles.cpp]: the per-link
    configuration, the per-iteration proximity snapshot, [calcError],
    [calcJacobian], [checkStatus], [evalConstraint], [init] and
    [loadParameters].

    Conventions of the embedding.
    - A C++ [double] is a real number of [R]: arithmetic is exact, rounding,
      overflow and NaN of binary64 are outside the model. Where a property
      depends on them, the assignment is embedded a second time on
      binary64 values ([calcError_binary64]).
    - [std::map<std::string, T>] is a [gmap string T]; a loop over the map
      visits its entries by increasing key, as the C++ iterator does.
    - A coefficient of an Eigen vector that was allocated by [resize] and
      never assigned is [None]; an [int] member that no constructor
      assigned is [None]; a null pointer is [None].
    - A function whose C++ body can run into an Eigen/KDL range assertion
      or a null dereference returns an [option]; [None] is that failure. *)

From Stdlib Require Import Reals Lra.
From stdpp Require Import gmap strings list fin_maps sorting.
From Stdlib Require Import PrimFloat FloatOps FloatAxioms SpecFloat.

Local Open Scope R_scope.

(** ** Constants of the translation unit *)

Definition DEFAULT_WEIGHT : R := 1.
Definition DEFAULT_MIN_DISTANCE : R := 1 / 10.
Definition DEFAULT_AVOIDANCE_DISTANCE : R := 3 / 10.
Definition DEFAULT_AMPLITUDE : R := 3 / 10.
Definition DEFAULT_SHIFT : R := 5.
Definition DEFAULT_ZERO_POINT : R := 10.

(** ** Geometry: 3-vectors, twists, KDL Jacobians *)

Record Vector3 := mkVector3 { vx : R; vy : R; vz : R }.

Definition vadd (a b : Vector3) : Vector3 :=
  mkVector3 (vx a + vx b) (vy a + vy b) (vz a + vz b).

(** [KDL::Vector operator*(Vector, Vector)] is the cross product. *)
Definition vcross (a b : Vector3) : Vector3 :=
  mkVector3 (vy a * vz b - vz a * vy b)
            (vz a * vx b - vx a * vz b)
            (vx a * vy b - vy a * vx b).

Definition vdot (a b : Vector3) : R :=
  vx a * vx b + vy a * vy b + vz a * vz b.

(** A column of a [KDL::Jacobian]: rows 0..2 are the linear velocity,
    rows 3..5 the angular velocity. *)
Record Twist := mkTwist { vel : Vector3; rot : Vector3 }.

(** [KDL::Twist::RefPoint]: [Twist(vel + rot * v_base_AB, rot)]. *)
Definition RefPoint (t : Twist) (v_base_AB : Vector3) : Twist :=
  mkTwist (vadd (vel t) (vcross (rot t) v_base_AB)) (rot t).

(** [KDL::Jacobian::changeRefPoint]: every column is re-based. *)
Definition changeRefPoint (jac : list Twist) (base_AB : Vector3) : list Twist :=
  (λ t, RefPoint t base_AB) <$> jac.

(** [KDL::ChainJntToJacSolver] bound to a sub-chain: [JntToJac q jac]
    fills column [i] of the pre-sized [jac] from the joint array [q]. *)
Record JacSolver := mkJacSolver { JntToJac : list R → nat → Twist }.

(** ** Data model *)

Record LinkAvoidance := mkLinkAvoidance {
  weight_ : R;
  min_distance_ : R;
  avoidance_distance_ : R;
  amplitude_ : R;
  num_robot_joints_ : option nat;
  link_name_ : string;
  num_inboard_joints_ : option nat;
  jac_solver_ : option JacSolver
}.

(** [LinkAvoidance::LinkAvoidance(std::string link_name)]: the two joint
    counts are not in the initialiser list. *)
Definition LinkAvoidance_new (link_name : string) : LinkAvoidance :=
  {| weight_ := DEFAULT_WEIGHT;
     min_distance_ := DEFAULT_MIN_DISTANCE;
     avoidance_distance_ := DEFAULT_AVOIDANCE_DISTANCE;
     amplitude_ := DEFAULT_AMPLITUDE;
     num_robot_joints_ := None;
     link_name_ := link_name;
     num_inboard_joints_ := None;
     jac_solver_ := None |}.

(** One entry of [CollisionRobotFCLDetailed::DistanceInfoMap]. *)
Record DistanceInfo := mkDistanceInfo {
  distance : R;
  link_point : Vector3;
  avoidance_vector : Vector3
}.

(** [AvoidObstaclesData]: the joint values of the solver state and the
    proximity entries of this iteration, keyed by link name. *)
Record AvoidObstaclesData := mkAvoidObstaclesData {
  joints : list R;
  distance_info_map_ : gmap string DistanceInfo
}.

(** ** calcError *)

(** [dist_err.resize(1,1)] allocates one coefficient and does not assign
    it; only the branch that found a proximity entry writes it. *)
Definition calcError (cdata : AvoidObstaclesData) (link : LinkAvoidance)
  : list (option R) :=
  match distance_info_map_ cdata !! link_name_ link with
  | Some info =>
      let dist := distance info in
      let scale_x := avoidance_distance_ link / (DEFAULT_ZERO_POINT + DEFAULT_SHIFT) in
      let scale_y := amplitude_ link in
      [Some (scale_y / (1 + exp (dist / scale_x - DEFAULT_SHIFT)))]
  | None => [None]
  end.

(** ** checkStatus *)

Definition checkStatus (cdata : AvoidObstaclesData) (link : LinkAvoidance) : bool :=
  match distance_info_map_ cdata !! link_name_ link with
  | Some info => if Rlt_dec (distance info) (min_distance_ link) then false else true
  | None => true
  end.

(** ** calcJacobian *)

(** [jacobian.setZero(1, n)]: a row of [n] zeros. *)
Definition setZero (n : nat) : list R := replicate n 0.

(** [joint_array(i) = cdata.state_.joints(i)] for [i < n]; reading past
    the end of the joint vector fails. *)
Definition joint_array (n : nat) (q : list R) : option (list R) :=
  if decide (n ≤ length q)%nat then Some (take n q) else None.

(** [jacobian.block(0, 0, 1, cols) = row]: the block must fit in the
    destination, whose other coefficients are kept. *)
Definition block_assign (jacobian row : list R) : option (list R) :=
  if decide (length row ≤ length jacobian)%nat
  then Some (row ++ drop (length row) jacobian)
  else None.

(** Modelled from the spec: [BasicKin::KDLToEigen] is not part of the
    sources. Section 4.4, step 3: the top 3 rows of the converted matrix
    are the linear-velocity block, so
    [avoidance_vector.transpose() * j_tmp.topRows(3)] projects each
    column's linear velocity on the avoidance direction. *)
Definition project (avoidance : Vector3) (jac : list Twist) : list R :=
  (λ t, vdot avoidance (vel t)) <$> jac.

(** The local [link_jacobian] is sized from [num_inboard_joints_] and the
    result from [num_robot_joints_] before the lookup, so both counts
    are read on every path. *)
Definition calcJacobian (cdata : AvoidObstaclesData) (link : LinkAvoidance)
  : option (list R) :=
  n ← num_inboard_joints_ link;
  total ← num_robot_joints_ link;
  let jacobian := setZero total in
  match distance_info_map_ cdata !! link_name_ link with
  | Some info =>
      q ← joint_array n (joints cdata);
      solver ← jac_solver_ link;
      let link_jacobian := JntToJac solver q <$> seq 0 n in
      let link_jacobian := changeRefPoint link_jacobian (link_point info) in
      block_assign jacobian (project (avoidance_vector info) link_jacobian)
  | None => Some jacobian
  end.

(** Column [j] of the projected, re-based sub-chain Jacobian. *)
Definition projected_column (solver : JacSolver) (q : list R) (info : DistanceInfo)
    (j : nat) : R :=
  vdot (avoidance_vector info) (vel (RefPoint (JntToJac solver q j) (link_point info))).

(** ** The constraint object *)

(** [std::map] iteration: entries by increasing key. *)
Definition map_iter {A} (m : gmap string A) : list (string * A) :=
  merge_sort (λ a b, String.le a.1 b.1) (map_to_list m).

(** The members of [AvoidObstacles] that this translation unit reads or
    writes; [log_] collects the ROS console messages, oldest first. *)
Record AvoidObstacles := mkAvoidObstacles {
  initialized_ : bool;
  links_ : gmap string LinkAvoidance;
  link_names_ : list string;
  link_models_ : gset string;
  log_ : list string
}.

(** Modelled from the spec: the constructor is declared in a header that
    is not part of the sources. Section 3: the per-link entries are
    created at configuration time, so a new constraint has none. *)
Definition AvoidObstacles_new : AvoidObstacles :=
  {| initialized_ := false; links_ := ∅; link_names_ := [];
     link_models_ := ∅; log_ := [] |}.

Definition set_links (f : gmap string LinkAvoidance → gmap string LinkAvoidance)
    (c : AvoidObstacles) : AvoidObstacles :=
  {| initialized_ := initialized_ c; links_ := f (links_ c);
     link_names_ := link_names_ c; link_models_ := link_models_ c;
     log_ := log_ c |}.

Definition set_initialized (b : bool) (c : AvoidObstacles) : AvoidObstacles :=
  {| initialized_ := b; links_ := links_ c; link_names_ := link_names_ c;
     link_models_ := link_models_ c; log_ := log_ c |}.

Definition set_link_names (l : list string) (c : AvoidObstacles) : AvoidObstacles :=
  {| initialized_ := initialized_ c; links_ := links_ c; link_names_ := l;
     link_models_ := link_models_ c; log_ := log_ c |}.

Definition set_link_models (l : gset string) (c : AvoidObstacles) : AvoidObstacles :=
  {| initialized_ := initialized_ c; links_ := links_ c;
     link_names_ := link_names_ c; link_models_ := l; log_ := log_ c |}.

Definition ros_log (msg : string) (c : AvoidObstacles) : AvoidObstacles :=
  {| initialized_ := initialized_ c; links_ := links_ c;
     link_names_ := link_names_ c; link_models_ := link_models_ c;
     log_ := log_ c ++ [msg] |}.

(** ** evalConstraint *)

Record ConstraintResults := mkConstraintResults {
  error : list (option R);
  jacobian : list (list R);
  status : bool
}.

Definition ConstraintResults_new : ConstraintResults :=
  {| error := []; jacobian := []; status := true |}.

(** Modelled from the spec: [ConstraintResults::append] is declared in a
    header that is not part of the sources. Section 4.6: error rows are
    stacked into one vector, Jacobian rows into one matrix, the overall
    status is the logical AND. *)
Definition append (output tmp : ConstraintResults) : ConstraintResults :=
  {| error := error output ++ error tmp;
     jacobian := jacobian output ++ jacobian tmp;
     status := status output && status tmp |}.

(** The body of the loop of [evalConstraint] for one link. *)
Definition evalLink (cdata : AvoidObstaclesData) (link : LinkAvoidance)
  : option ConstraintResults :=
  let e := calcError cdata link in
  j ← calcJacobian cdata link;
  let s := checkStatus cdata link in
  Some {| error := e; jacobian := [j]; status := s |}.

Fixpoint evalLinks (cdata : AvoidObstaclesData) (its : list (string * LinkAvoidance))
    (output : ConstraintResults) : option ConstraintResults :=
  match its with
  | [] => Some output
  | it :: rest =>
      tmp ← evalLink cdata it.2;
      evalLinks cdata rest (append output tmp)
  end.

(** The solver state as [AvoidObstaclesData] sees it: the joint values
    and the collision service, which answers one self-distance query for
    a set of link models with entries already in the chain-base frame. *)
Record SolverState := mkSolverState {
  state_joints : list R;
  collision_robot : gset string → gmap string DistanceInfo
}.

Definition AvoidObstaclesData_new (state : SolverState) (parent : AvoidObstacles)
  : AvoidObstaclesData :=
  {| joints := state_joints state;
     distance_info_map_ := collision_robot state (link_models_ parent) |}.

Definition evalConstraint (state : SolverState) (c : AvoidObstacles)
  : option ConstraintResults :=
  let cdata := AvoidObstaclesData_new state c in
  evalLinks cdata (map_iter (links_ c)) ConstraintResults_new.

(** A link that [init] has bound to a chain of [total] joints, evaluated
    on a joint vector [q] that covers its sub-chain. *)
Definition bound (total : nat) (q : list R) (link : LinkAvoidance) : Prop :=
  num_robot_joints_ link = Some total
  ∧ ∃ inboard solver,
      num_inboard_joints_ link = Some inboard
      ∧ jac_solver_ link = Some solver
      ∧ (inboard ≤ total)%nat
      ∧ (inboard ≤ length q)%nat.

(** ** init *)

(** A [KDL::Chain] as far as [init] uses it. *)
Record Chain := mkChain {
  getNrOfJoints : nat;
  chain_jacobian : list R → nat → Twist
}.

Definition ChainJntToJacSolver (chain : Chain) : JacSolver :=
  mkJacSolver (chain_jacobian chain).

(** The kinematics of the bound [Constrained_IK] as far as [init] uses
    it. *)
Record Constrained_IK := mkConstrained_IK {
  getLinkNames : list string;
  numJoints : nat;
  getSubChain : string → option Chain;
  getLinkModels : list string
}.

Definition bind_ok (total : nat) (chain : Chain) (link : LinkAvoidance) : LinkAvoidance :=
  {| weight_ := weight_ link; min_distance_ := min_distance_ link;
     avoidance_distance_ := avoidance_distance_ link;
     amplitude_ := amplitude_ link;
     num_robot_joints_ := Some total;
     link_name_ := link_name_ link;
     num_inboard_joints_ := Some (getNrOfJoints chain);
     jac_solver_ := Some (ChainJntToJacSolver chain) |}.

Definition bind_failed (total : nat) (link : LinkAvoidance) : LinkAvoidance :=
  {| weight_ := weight_ link; min_distance_ := min_distance_ link;
     avoidance_distance_ := avoidance_distance_ link;
     amplitude_ := amplitude_ link;
     num_robot_joints_ := Some total;
     link_name_ := link_name_ link;
     num_inboard_joints_ := num_inboard_joints_ link;
     jac_solver_ := jac_solver_ link |}.

Definition subchain_error : string :=
  "Failed to initialize Avoid Obstalces constraint becauseit failed to create a KDL chain between URDF links".

(** The loop of [init] over [links_]: the entries are updated in place;
    the first link whose sub-chain cannot be built ends the loop (and
    [init]) with [false]. *)
Fixpoint bind_links (ik : Constrained_IK) (its : list (string * LinkAvoidance))
    (links : gmap string LinkAvoidance) : gmap string LinkAvoidance * bool :=
  match its with
  | [] => (links, true)
  | (key, link) :: rest =>
      match getSubChain ik (link_name_ link) with
      | None => (<[key := bind_failed (numJoints ik) link]> links, false)
      | Some chain =>
          bind_links ik rest (<[key := bind_ok (numJoints ik) chain link]> links)
      end
  end.

Definition no_links_warning : string :=
  "Avoid Obstacles: No links were specified therefore using all links in kinematic chain.".

(** Modelled from the spec: [Constraint::init] of the base class is not
    part of the sources. Section 3: a constraint is marked invalid only
    when binding fails, so the base class marks it valid. *)
Definition Constraint_init (c : AvoidObstacles) : AvoidObstacles :=
  set_initialized true c.

(** A link model is identified by its name; [link_models_] is a
    [std::set], so the models found are added to those already there. *)
Definition init (ik : Constrained_IK) (c : AvoidObstacles) : AvoidObstacles :=
  let c := Constraint_init c in
  let c :=
    if decide (length (link_names_ c) = 0%nat)
    then ros_log no_links_warning (set_link_names (getLinkNames ik) c)
    else c in
  let '(links, ok) := bind_links ik (map_iter (links_ c)) (links_ c) in
  let c := set_links (λ _, links) c in
  if ok
  then set_link_models
         (link_models_ c ∪
          list_to_set (filter (λ name, name ∈ link_names_ c) (getLinkModels ik))) c
  else ros_log subchain_error (set_initialized false c).

(** ** loadParameters *)

(** Modelled from the spec: [addAvoidanceLink] is declared in a header
    that is not part of the sources. Section 4.1: "[addLink(name)]
    registers a link with default parameters unless already present". *)
Definition addAvoidanceLink (link_name : string) (c : AvoidObstacles) : AvoidObstacles :=
  match links_ c !! link_name with
  | Some _ => c
  | None =>
      set_link_names (link_names_ c ++ [link_name])
        (set_links (insert link_name (LinkAvoidance_new link_name)) c)
  end.

(** The four per-link parameters that a configuration can carry. *)
Inductive param := Amplitude | MinDistance | AvoidanceDistance | Weight.

Global Instance param_eq_dec : EqDecision param.
Proof. solve_decision. Defined.

Definition param_get (p : param) (link : LinkAvoidance) : R :=
  match p with
  | Amplitude => amplitude_ link
  | MinDistance => min_distance_ link
  | AvoidanceDistance => avoidance_distance_ link
  | Weight => weight_ link
  end.

Definition param_set (p : param) (v : R) (link : LinkAvoidance) : LinkAvoidance :=
  {| weight_ := if decide (p = Weight) then v else weight_ link;
     min_distance_ := if decide (p = MinDistance) then v else min_distance_ link;
     avoidance_distance_ :=
       if decide (p = AvoidanceDistance) then v else avoidance_distance_ link;
     amplitude_ := if decide (p = Amplitude) then v else amplitude_ link;
     num_robot_joints_ := num_robot_joints_ link;
     link_name_ := link_name_ link;
     num_inboard_joints_ := num_inboard_joints_ link;
     jac_solver_ := jac_solver_ link |}.

Definition param_default (p : param) : R :=
  match p with
  | Amplitude => DEFAULT_AMPLITUDE
  | MinDistance => DEFAULT_MIN_DISTANCE
  | AvoidanceDistance => DEFAULT_AVOIDANCE_DISTANCE
  | Weight => DEFAULT_WEIGHT
  end.

(** Modelled from the spec: the setters are declared in a header that is
    not part of the sources. Section 4.1: they "mutate an existing entry;
    calling on an unregistered name is an error". *)
Definition setParam (p : param) (link_name : string) (v : R) (c : AvoidObstacles)
  : option AvoidObstacles :=
  link ← links_ c !! link_name;
  Some (set_links (insert link_name (param_set p v link)) c).

Definition setAmplitude := setParam Amplitude.
Definition setMinDistance := setParam MinDistance.
Definition setAvoidanceDistance := setParam AvoidanceDistance.
Definition setWeight := setParam Weight.

(** The members of the constraint's XML-RPC struct that [loadParameters]
    asks for; [None] is a member that [getParam] cannot retrieve. *)
Record XmlRpcValue := mkXmlRpcValue {
  xml_link_names : option (list string);
  xml_amplitude : option (list R);
  xml_minimum_distance : option (list R);
  xml_avoidance_distance : option (list R);
  xml_weight : option (list R)
}.

Definition xml_member (p : param) (xml : XmlRpcValue) : option (list R) :=
  match p with
  | Amplitude => xml_amplitude xml
  | MinDistance => xml_minimum_distance xml
  | AvoidanceDistance => xml_avoidance_distance xml
  | Weight => xml_weight xml
  end.

Definition param_name (p : param) : string :=
  match p with
  | Amplitude => "amplitude"
  | MinDistance => "minimum_distance"
  | AvoidanceDistance => "avoidance_distance"
  | Weight => "weight"
  end.

Definition size_warning (p : param) : string :=
  "Abstacle Avoidance: " +:+ param_name p +:+
  " memebr must be same size array as link_names member, default parameters will be used.".

Definition missing_warning (name : string) : string :=
  "Abstacle Avoidance: Unable to retrieving " +:+ name +:+
  " member, default parameter will be used.".

(** One of the four blocks that read a parameter array: the array that
    the loop will use, and the constraint with the warning logged. *)
Definition readArray (p : param) (xml : XmlRpcValue) (link_names : list string)
    (c : AvoidObstacles) : list R * AvoidObstacles :=
  match xml_member p xml with
  | Some arr =>
      if decide (length link_names ≠ length arr)
      then ([], ros_log (size_warning p) c)
      else (arr, c)
  | None => ([], ros_log (missing_warning (param_name p)) c)
  end.

(** [if (!arr.empty()) setX(link_names[i], arr[i])]. *)
Definition applyArray (p : param) (arr : list R) (link_name : string) (i : nat)
    (c : AvoidObstacles) : option AvoidObstacles :=
  match arr with
  | [] => Some c
  | _ => v ← arr !! i; setParam p link_name v c
  end.

(** The body of the loop over [link_names] at index [i]. *)
Definition loadLink (link_names : list string)
    (amplitude minimum_distance avoidance_distance weight : list R)
    (i : nat) (c : AvoidObstacles) : option AvoidObstacles :=
  link_name ← link_names !! i;
  let c := addAvoidanceLink link_name c in
  c ← applyArray Amplitude amplitude link_name i c;
  c ← applyArray MinDistance minimum_distance link_name i c;
  c ← applyArray AvoidanceDistance avoidance_distance link_name i c;
  applyArray Weight weight link_name i c.

Definition loadLinks (link_names : list string)
    (amplitude minimum_distance avoidance_distance weight : list R)
    (indices : list nat) (c : AvoidObstacles) : option AvoidObstacles :=
  foldl (λ oc i, oc ≫= loadLink link_names amplitude minimum_distance
                          avoidance_distance weight i)
        (Some c) indices.

Definition loadParameters (constraint_xml : XmlRpcValue) (c : AvoidObstacles)
  : option AvoidObstacles :=
  match xml_link_names constraint_xml with
  | Some link_names =>
      let '(amplitude, c) := readArray Amplitude constraint_xml link_names c in
      let '(minimum_distance, c) := readArray MinDistance constraint_xml link_names c in
      let '(avoidance_distance, c) :=
        readArray AvoidanceDistance constraint_xml link_names c in
      let '(weight, c) := readArray Weight constraint_xml link_names c in
      loadLinks link_names amplitude minimum_distance avoidance_distance weight
                (seq 0 (length link_names)) c
  | None => Some (ros_log (missing_warning "link_names") c)
  end.

(** What [applyArray] does to the record of the link it is called for. *)
Definition arr_apply (p : param) (arr : list R) (i : nat) (link : LinkAvoidance)
  : LinkAvoidance :=
  match arr !! i with
  | Some v => param_set p v link
  | None => link
  end.

(** The array that the loop of [loadParameters] holds for a parameter. *)
Definition arrs (amplitude minimum_distance avoidance_distance weight : list R)
    (p : param) : list R :=
  match p with
  | Amplitude => amplitude
  | MinDistance => minimum_distance
  | AvoidanceDistance => avoidance_distance
  | Weight => weight
  end.

(** The record of a link after one pass of the loop body. *)
Definition step_link (amplitude minimum_distance avoidance_distance weight : list R)
    (i : nat) (link : LinkAvoidance) : LinkAvoidance :=
  arr_apply Weight weight i
    (arr_apply AvoidanceDistance avoidance_distance i
       (arr_apply MinDistance minimum_distance i
          (arr_apply Amplitude amplitude i link))).

(** The record that the loop body starts from: the registered one, or a
    fresh one with the defaults. *)
Definition base_link (name : string) (c : AvoidObstacles) : LinkAvoidance :=
  default (LinkAvoidance_new name) (links_ c !! name).

(** The array that [loadParameters] keeps for a parameter: the member of
    the XML struct if it is there with one value per link name, the
    empty array otherwise. *)
Definition kept_array (p : param) (xml : XmlRpcValue) (link_names : list string)
  : list R :=
  match xml_member p xml with
  | Some arr => if decide (length link_names ≠ length arr) then [] else arr
  | None => []
  end.

(** ** Worked inputs *)

Definition example_chain : Chain :=
  {| getNrOfJoints := 2;
     chain_jacobian := λ _ _, mkTwist (mkVector3 1 0 0) (mkVector3 0 0 1) |}.

Definition example_ik : Constrained_IK :=
  {| getLinkNames := ["link_1"; "link_2"];
     numJoints := 3;
     getSubChain := λ _, Some example_chain;
     getLinkModels := ["link_1"; "link_2"] |}.

Definition unresolvable_ik : Constrained_IK :=
  {| getLinkNames := ["link_1"; "link_2"];
     numJoints := 3;
     getSubChain := λ _, None;
     getLinkModels := ["link_1"; "link_2"] |}.

Definition example_link : LinkAvoidance :=
  bind_ok 3 example_chain (LinkAvoidance_new "link_1").

Definition example_info (d : R) : DistanceInfo :=
  {| distance := d;
     link_point := mkVector3 0 0 (1 / 2);
     avoidance_vector := mkVector3 1 0 0 |}.

Definition near_data (d : R) : AvoidObstaclesData :=
  {| joints := [0; 0; 0];
     distance_info_map_ := {["link_1" := example_info d]} |}.

Definition quiet_data : AvoidObstaclesData :=
  {| joints := [0; 0; 0]; distance_info_map_ := ∅ |}.

Definition quiet_state : SolverState :=
  {| state_joints := [0; 0; 0]; collision_robot := λ _, ∅ |}.

Definition one_link : AvoidObstacles :=
  addAvoidanceLink "link_1" AvoidObstacles_new.

Definition example_xml : XmlRpcValue :=
  {| xml_link_names := Some ["link_1"; "link_2"];
     xml_amplitude := Some [1];
     xml_minimum_distance := Some [1 / 5; 1 / 4];
     xml_avoidance_distance := None;
     xml_weight := None |}.

Definition near_state : SolverState :=
  {| state_joints := [0; 0; 0];
     collision_robot := λ _, {["link_1" := example_info (1 / 20)]} |}.

(** ** Notions and inputs of the further properties *)

(** A 3-vector scaled by a factor. *)
Definition vscale (k : R) (v : Vector3) : Vector3 :=
  mkVector3 (k * vx v) (k * vy v) (k * vz v).

Definition scaled_info (k : R) (info : DistanceInfo) : DistanceInfo :=
  {| distance := distance info;
     link_point := link_point info;
     avoidance_vector := vscale k (avoidance_vector info) |}.

Definition scaled_data (k d : R) : AvoidObstaclesData :=
  {| joints := [0; 0; 0];
     distance_info_map_ := {["link_1" := scaled_info k (example_info d)]} |}.

Definition partial_ik : Constrained_IK :=
  {| getLinkNames := ["link_1"; "link_2"];
     numJoints := 3;
     getSubChain := λ name,
       if decide (name = "link_1") then Some example_chain else None;
     getLinkModels := ["link_1"; "link_2"] |}.

Definition two_links : AvoidObstacles :=
  addAvoidanceLink "link_2" one_link.

Definition tuned_link : LinkAvoidance :=
  param_set Amplitude (7 / 10) (LinkAvoidance_new "link_1").

Definition tuned : AvoidObstacles :=
  set_links (insert "link_1" tuned_link) one_link.

Definition full_xml : XmlRpcValue :=
  {| xml_link_names := Some ["link_1"; "link_2"];
     xml_amplitude := Some [1 / 2; 1 / 3];
     xml_minimum_distance := Some [1 / 5; 1 / 4];
     xml_avoidance_distance := Some [2 / 5; 1 / 2];
     xml_weight := Some [1; 2] |}.

(** ** The error model in the arithmetic of the program *)






(** * Properties *)

(** ** The error model *)

Section ErrorModel.
Variables (cdata : AvoidObstaclesData) (link : LinkAvoidance).

Lemma calcError_found info :
  distance_info_map_ cdata !! link_name_ link = Some info →
  calcError cdata link =
    [Some (amplitude_ link /
           (1 + exp (distance info /
                     (avoidance_distance_ link / (DEFAULT_ZERO_POINT + DEFAULT_SHIFT))
                     - DEFAULT_SHIFT)))].
Proof. intros Hfind. unfold calcError. by rewrite Hfind. Qed.

Lemma calcError_not_found :
  distance_info_map_ cdata !! link_name_ link = None →
  calcError cdata link = [None].
Proof. intros Hfind. unfold calcError. by rewrite Hfind. Qed.

Lemma calcError_length : length (calcError cdata link) = 1%nat.
Proof. unfold calcError. by destruct (_ !! _). Qed.
End ErrorModel.

Lemma scale_x_pos (avoidance : R) :
  0 < avoidance → 0 < avoidance / (DEFAULT_ZERO_POINT + DEFAULT_SHIFT).
Proof.
  intros Hpos. unfold DEFAULT_ZERO_POINT, DEFAULT_SHIFT.
  apply Rdiv_lt_0_compat; lra.
Qed.

Lemma sigmoid_denominator_gt_1 (x : R) : 1 < 1 + exp x.
Proof. pose proof (exp_pos x). lra. Qed.

(** The logistic ramp is antitone in its exponent when the amplitude is
    not negative. *)
Lemma sigmoid_antitone (amplitude x y : R) :
  0 <= amplitude → x <= y →
  amplitude / (1 + exp y) <= amplitude / (1 + exp x).
Proof.
  intros Hamp Hxy.
  pose proof (sigmoid_denominator_gt_1 x) as Hx.
  assert (exp x <= exp y) as Hexp.
  { destruct Hxy as [Hlt | ->]; [left; by apply exp_increasing | right; reflexivity]. }
  unfold Rdiv. apply Rmult_le_compat_l; [done|].
  apply Rinv_le_contravar; lra.
Qed.


(** C1: a link with a proximity entry at distance [d] gets the single
    error [amplitude / (1 + exp (d / (avoidanceDistance / (10 + 5)) - 5))];
    at [d = 0] (the avoidance distance being a valid divisor) this is
    [amplitude / (1 + exp (-5))]. *)
Theorem calcError_formula (cdata : AvoidObstaclesData) (link : LinkAvoidance)
    (info : DistanceInfo) :
  distance_info_map_ cdata !! link_name_ link = Some info →
  calcError cdata link =
    [Some (amplitude_ link /
           (1 + exp (distance info / (avoidance_distance_ link / (10 + 5)) - 5)))]
  ∧ (avoidance_distance_ link ≠ 0 → distance info = 0 →
     calcError cdata link = [Some (amplitude_ link / (1 + exp (-5)))]).
Proof.
  intros Hfind. rewrite (calcError_found _ _ _ Hfind).
  unfold DEFAULT_ZERO_POINT, DEFAULT_SHIFT. split; [done|].
  intros _ ->.
  replace (0 / (avoidance_distance_ link / (10 + 5)) - 5) with (-5); [done|].
  unfold Rdiv. rewrite Rmult_0_l. lra.
Qed.

(** C2: [checkStatus] is [false] exactly when a proximity entry exists
    whose distance is strictly below the link's minimum distance, and
    [true] in every other case. *)
Theorem checkStatus_false_iff (cdata : AvoidObstaclesData) (link : LinkAvoidance) :
  (checkStatus cdata link = false ↔
     ∃ info, distance_info_map_ cdata !! link_name_ link = Some info
             ∧ distance info < min_distance_ link)
  ∧ (checkStatus cdata link = true ↔
     distance_info_map_ cdata !! link_name_ link = None
     ∨ ∃ info, distance_info_map_ cdata !! link_name_ link = Some info
               ∧ min_distance_ link <= distance info).
Proof.
  unfold checkStatus.
  destruct (distance_info_map_ cdata !! link_name_ link) as [info|] eqn:Hfind.
  - destruct (Rlt_dec (distance info) (min_distance_ link)) as [Hlt|Hge].
    + split; split; try done.
      * intros _. by exists info.
      * intros [? | (info' & [= <-] & Hle)]; [done | lra].
    + split; split; try done.
      * intros (info' & [= <-] & Hlt). lra.
      * intros _. right. exists info. split; [done | lra].
  - split; split; try done.
    + intros (? & ? & _). done.
    + intros _. by left.
Qed.

(** C7: for one parameter set with a positive avoidance distance (and an
    amplitude that is not negative) the error does not grow with the
    distance. *)
Theorem calcError_monotone (link : LinkAvoidance)
    (cdata1 cdata2 : AvoidObstaclesData) (info1 info2 : DistanceInfo) :
  distance_info_map_ cdata1 !! link_name_ link = Some info1 →
  distance_info_map_ cdata2 !! link_name_ link = Some info2 →
  0 <= amplitude_ link →
  0 < avoidance_distance_ link →
  distance info1 < distance info2 →
  ∃ e1 e2, calcError cdata1 link = [Some e1]
           ∧ calcError cdata2 link = [Some e2]
           ∧ e1 >= e2.
Proof.
  intros Hfind1 Hfind2 Hamp Havoid Hlt.
  eexists _, _. split; [by apply calcError_found|].
  split; [by apply calcError_found|].
  apply Rle_ge, sigmoid_antitone; [done|].
  pose proof (scale_x_pos _ Havoid) as Hscale.
  apply Rplus_le_compat_r. unfold Rdiv at 1 3.
  apply Rmult_le_compat_r; [|lra].
  left. by apply Rinv_0_lt_compat.
Qed.

(** ** The status check and the Jacobian row without a proximity entry *)

Lemma checkStatus_not_found (cdata : AvoidObstaclesData) (link : LinkAvoidance) :
  distance_info_map_ cdata !! link_name_ link = None →
  checkStatus cdata link = true.
Proof. intros Hfind. unfold checkStatus. by rewrite Hfind. Qed.

Lemma calcJacobian_not_found (cdata : AvoidObstaclesData) (link : LinkAvoidance)
    (total inboard : nat) :
  num_robot_joints_ link = Some total →
  num_inboard_joints_ link = Some inboard →
  distance_info_map_ cdata !! link_name_ link = None →
  calcJacobian cdata link = Some (replicate total 0).
Proof.
  intros Htotal Hinboard Hfind. unfold calcJacobian.
  by rewrite Hinboard, Htotal, Hfind.
Qed.

(** ** The Jacobian row with a proximity entry *)

Lemma project_changeRefPoint (solver : JacSolver) (q : list R) (info : DistanceInfo)
    (n : nat) :
  project (avoidance_vector info)
          (changeRefPoint (JntToJac solver q <$> seq 0 n) (link_point info))
  = projected_column solver q info <$> seq 0 n.
Proof.
  unfold project, changeRefPoint. rewrite <- !list_fmap_compose.
  by apply list_fmap_ext.
Qed.

Lemma block_assign_setZero (row : list R) (total : nat) :
  (length row ≤ total)%nat →
  block_assign (setZero total) row = Some (row ++ replicate (total - length row) 0).
Proof.
  intros Hfit. unfold block_assign, setZero.
  rewrite length_replicate, decide_True by done.
  by rewrite drop_replicate.
Qed.

Lemma calcJacobian_found (cdata : AvoidObstaclesData) (link : LinkAvoidance)
    (info : DistanceInfo) (total inboard : nat) (solver : JacSolver) :
  num_robot_joints_ link = Some total →
  num_inboard_joints_ link = Some inboard →
  jac_solver_ link = Some solver →
  (inboard ≤ total)%nat →
  (inboard ≤ length (joints cdata))%nat →
  distance_info_map_ cdata !! link_name_ link = Some info →
  calcJacobian cdata link =
    Some ((projected_column solver (take inboard (joints cdata)) info <$> seq 0 inboard)
          ++ replicate (total - inboard) 0).
Proof.
  intros Htotal Hinboard Hsolver Hle Hq Hfind. unfold calcJacobian.
  rewrite Hinboard, Htotal, Hfind, Hsolver. simpl.
  unfold joint_array. rewrite decide_True by done. simpl.
  rewrite project_changeRefPoint, block_assign_setZero;
    rewrite length_fmap, length_seq; done.
Qed.

(** C4: the row of a bound link has [totalJoints] columns; the columns
    from [inboardJoints] on are 0, with or without a proximity entry;
    with an entry, column [j < inboardJoints] is the projection of the
    re-based sub-chain Jacobian taken at the first [inboardJoints] joint
    values of the snapshot. *)
Theorem calcJacobian_row (cdata : AvoidObstaclesData) (link : LinkAvoidance)
    (total inboard : nat) (solver : JacSolver) :
  num_robot_joints_ link = Some total →
  num_inboard_joints_ link = Some inboard →
  jac_solver_ link = Some solver →
  (inboard ≤ total)%nat →
  (inboard ≤ length (joints cdata))%nat →
  ∃ row, calcJacobian cdata link = Some row
    ∧ length row = total
    ∧ (∀ j, (inboard ≤ j < total)%nat → row !! j = Some 0)
    ∧ (distance_info_map_ cdata !! link_name_ link = None →
       row = replicate total 0)
    ∧ (∀ info, distance_info_map_ cdata !! link_name_ link = Some info →
       ∀ j, (j < inboard)%nat →
         row !! j =
           Some (projected_column solver (take inboard (joints cdata)) info j)).
Proof.
  intros Htotal Hinboard Hsolver Hle Hq.
  destruct (distance_info_map_ cdata !! link_name_ link) as [info|] eqn:Hfind.
  - eexists. split; [by eapply calcJacobian_found|].
    split; [|split; [|split]].
    + rewrite length_app, length_fmap, length_seq, length_replicate. lia.
    + intros j [Hj1 Hj2].
      rewrite lookup_app_r; rewrite length_fmap, length_seq; [|done].
      apply lookup_replicate_2. lia.
    + done.
    + intros info' [= <-] j Hj.
      rewrite lookup_app_l by (rewrite length_fmap, length_seq; done).
      rewrite list_lookup_fmap, lookup_seq_lt by done. done.
  - eexists. split; [by eapply calcJacobian_not_found|].
    split; [|split; [|split]]; try done.
    + apply length_replicate.
    + intros j [_ Hj]. by apply lookup_replicate_2.
Qed.

(** ** Iterating over the link map *)

Lemma map_iter_Permutation {A} (m : gmap string A) : map_iter m ≡ₚ map_to_list m.
Proof. apply merge_sort_Permutation. Qed.

Lemma length_map_iter {A} (m : gmap string A) : length (map_iter m) = size m.
Proof. by rewrite map_iter_Permutation, length_map_to_list. Qed.

Lemma elem_of_map_iter {A} (m : gmap string A) (k : string) (x : A) :
  (k, x) ∈ map_iter m ↔ m !! k = Some x.
Proof. by rewrite map_iter_Permutation, elem_of_map_to_list. Qed.

Lemma NoDup_fst_map_iter {A} (m : gmap string A) : NoDup (map_iter m).*1.
Proof. rewrite map_iter_Permutation. apply NoDup_fst_map_to_list. Qed.

Lemma map_iter_empty {A} : map_iter (∅ : gmap string A) = [].
Proof.
  apply Permutation_nil_r. by rewrite map_iter_Permutation, map_to_list_empty.
Qed.

Lemma map_iter_singleton {A} (k : string) (x : A) :
  map_iter ({[k := x]} : gmap string A) = [(k, x)].
Proof.
  apply Permutation_singleton_r.
  by rewrite map_iter_Permutation, map_to_list_singleton.
Qed.

(** ** evalConstraint *)

Lemma calcJacobian_bound (cdata : AvoidObstaclesData) (link : LinkAvoidance)
    (total : nat) :
  bound total (joints cdata) link →
  ∃ row, calcJacobian cdata link = Some row ∧ length row = total.
Proof.
  intros (Htotal & inboard & solver & Hinboard & Hsolver & Hle & Hq).
  destruct (distance_info_map_ cdata !! link_name_ link) as [info|] eqn:Hfind.
  - eexists. split; [by eapply calcJacobian_found|].
    rewrite length_app, length_fmap, length_seq, length_replicate. lia.
  - eexists. split; [by eapply calcJacobian_not_found|].
    apply length_replicate.
Qed.

Lemma evalLink_bound (cdata : AvoidObstaclesData) (link : LinkAvoidance)
    (total : nat) :
  bound total (joints cdata) link →
  ∃ row, evalLink cdata link =
           Some {| error := calcError cdata link; jacobian := [row];
                   status := checkStatus cdata link |}
         ∧ length row = total.
Proof.
  intros Hbound. destruct (calcJacobian_bound _ _ _ Hbound) as (row & Hrow & Hlen).
  exists row. split; [|done]. unfold evalLink. by rewrite Hrow.
Qed.

Lemma evalLinks_bound (cdata : AvoidObstaclesData) (total : nat)
    (its : list (string * LinkAvoidance)) (output : ConstraintResults) :
  Forall (λ it, bound total (joints cdata) it.2) its →
  ∃ out, evalLinks cdata its output = Some out
    ∧ length (error out) = (length (error output) + length its)%nat
    ∧ length (jacobian out) = (length (jacobian output) + length its)%nat
    ∧ (Forall (λ row, length row = total) (jacobian output) →
       Forall (λ row, length row = total) (jacobian out))
    ∧ status out = status output && forallb (λ it, checkStatus cdata it.2) its.
Proof.
  revert output. induction its as [|it its IH]; intros output Hall.
  - exists output. simpl. rewrite !Nat.add_0_r, andb_true_r. done.
  - apply Forall_cons in Hall as [Hit Hall].
    destruct (evalLink_bound _ _ _ Hit) as (row & Heval & Hlen).
    simpl. rewrite Heval. simpl.
    destruct (IH (append output
                    {| error := calcError cdata it.2; jacobian := [row];
                       status := checkStatus cdata it.2 |}) Hall)
      as (out & Hout & Herr & Hjac & Hrows & Hstatus).
    exists out. split; [done|]. simpl in *.
    rewrite length_app, calcError_length in Herr.
    rewrite length_app in Hjac. simpl in Hjac.
    split; [lia|]. split; [lia|]. split.
    + intros Hprev. apply Hrows, Forall_app. split; [done|].
      by apply Forall_singleton.
    + by rewrite Hstatus, andb_assoc.
Qed.

(** C10: [calcError] returns a vector of dimension 1 and, for a bound
    link, [calcJacobian] a row of [totalJoints] columns, whether or not
    the snapshot has a proximity entry; [evalConstraint] therefore
    contributes one error coefficient and one Jacobian row of that width
    per configured link. *)
Theorem evalConstraint_dimensions (state : SolverState) (c : AvoidObstacles)
    (total : nat) :
  (∀ key link, links_ c !! key = Some link →
               bound total (state_joints state) link) →
  let cdata := AvoidObstaclesData_new state c in
  (∀ key link, links_ c !! key = Some link →
     length (calcError cdata link) = 1%nat
     ∧ ∃ row, calcJacobian cdata link = Some row ∧ length row = total)
  ∧ ∃ out, evalConstraint state c = Some out
      ∧ length (error out) = size (links_ c)
      ∧ length (jacobian out) = size (links_ c)
      ∧ Forall (λ row, length row = total) (jacobian out).
Proof.
  intros Hbound cdata. split.
  - intros key link Hlink. split; [apply calcError_length|].
    apply calcJacobian_bound. by eapply Hbound.
  - destruct (evalLinks_bound cdata total (map_iter (links_ c)) ConstraintResults_new)
      as (out & Hout & Herr & Hjac & Hrows & _).
    { apply Forall_forall. intros [key link] Hin.
      apply elem_of_map_iter in Hin. by eapply Hbound. }
    exists out. rewrite length_map_iter in Herr, Hjac. simpl in *.
    split; [done|]. split; [done|]. split; [done|]. by apply Hrows.
Qed.

(** ** init *)

Lemma bind_links_true (ik : Constrained_IK) (its : list (string * LinkAvoidance))
    (links : gmap string LinkAvoidance) :
  (bind_links ik its links).2 = true ↔
  Forall (λ it, is_Some (getSubChain ik (link_name_ it.2))) its.
Proof.
  revert links. induction its as [|[key link] its IH]; intros links; simpl.
  - split; [by constructor | done].
  - destruct (getSubChain ik (link_name_ link)) as [chain|] eqn:Hsub; simpl.
    + rewrite IH, Forall_cons. simpl. rewrite Hsub.
      split; [by split | by intros [_ ?]].
    + rewrite Forall_cons. simpl. rewrite Hsub.
      split; [done | intros [[? [=]] _]].
Qed.

(** A successful loop has bound every visited link and has left the
    other entries of the map alone. *)
Lemma bind_links_lookup (ik : Constrained_IK) (its : list (string * LinkAvoidance))
    (links : gmap string LinkAvoidance) :
  NoDup its.*1 →
  (bind_links ik its links).2 = true →
  (∀ key link, (key, link) ∈ its →
     ∃ chain, getSubChain ik (link_name_ link) = Some chain
       ∧ (bind_links ik its links).1 !! key
         = Some (bind_ok (numJoints ik) chain link))
  ∧ (∀ key, key ∉ its.*1 → (bind_links ik its links).1 !! key = links !! key).
Proof.
  revert links. induction its as [|[key0 link0] its IH]; intros links Hnodup Hok.
  - split; [intros ?? []%elem_of_nil | done].
  - simpl in *. apply NoDup_cons in Hnodup as [Hfresh Hnodup].
    destruct (getSubChain ik (link_name_ link0)) as [chain|] eqn:Hsub; [|done].
    destruct (IH _ Hnodup Hok) as [IHin IHout]. split.
    + intros key link [[= -> ->] | Hin]%elem_of_cons.
      * exists chain. split; [done|].
        by rewrite IHout, lookup_insert_eq.
      * by apply IHin.
    + intros key [Hne Hnotin]%not_elem_of_cons.
      by rewrite IHout, lookup_insert_ne.
Qed.

Lemma init_initialized (ik : Constrained_IK) (c : AvoidObstacles) :
  initialized_ (init ik c)
  = (bind_links ik (map_iter (links_ c)) (links_ c)).2.
Proof.
  unfold init.
  case_decide; simpl;
    by destruct (bind_links ik (map_iter (links_ c)) (links_ c)) as [links [|]].
Qed.

Lemma init_links (ik : Constrained_IK) (c : AvoidObstacles) :
  links_ (init ik c) = (bind_links ik (map_iter (links_ c)) (links_ c)).1.
Proof.
  unfold init.
  case_decide; simpl;
    by destruct (bind_links ik (map_iter (links_ c)) (links_ c)) as [links [|]].
Qed.

(** [init] fails exactly when some configured link has no sub-chain. *)
Lemma init_failed_iff (ik : Constrained_IK) (c : AvoidObstacles) :
  initialized_ (init ik c) = false ↔
  ∃ key link, links_ c !! key = Some link
              ∧ getSubChain ik (link_name_ link) = None.
Proof.
  rewrite init_initialized, <- not_true_iff_false, bind_links_true. split.
  - intros Hnot. apply not_Forall_Exists in Hnot; [|apply _].
    apply Exists_exists in Hnot as ([key link] & Hin%elem_of_map_iter & Hnone).
    simpl in Hnone. exists key, link. split; [done|].
    by apply eq_None_not_Some.
  - intros (key & link & Hlink & Hnone) Hall.
    rewrite Forall_forall in Hall.
    apply elem_of_map_iter, Hall in Hlink. simpl in Hlink.
    rewrite Hnone in Hlink. by destruct Hlink.
Qed.

(** After a successful [init] on kinematics whose sub-chains have no more
    joints than the chain, every link is bound for a joint vector of the
    chain's length. *)
Lemma init_bound (ik : Constrained_IK) (c : AvoidObstacles) (q : list R) :
  initialized_ (init ik c) = true →
  (∀ name chain, getSubChain ik name = Some chain →
                 (getNrOfJoints chain ≤ numJoints ik)%nat) →
  length q = numJoints ik →
  ∀ key link, links_ (init ik c) !! key = Some link →
              bound (numJoints ik) q link.
Proof.
  rewrite init_initialized, init_links. intros Hok Hsub Hq key link Hlink.
  destruct (bind_links_lookup ik (map_iter (links_ c)) (links_ c))
    as [Hin Hout]; [apply NoDup_fst_map_iter | done |].
  destruct (links_ c !! key) as [link0|] eqn:Hlink0.
  - apply elem_of_map_iter in Hlink0.
    destruct (Hin _ _ Hlink0) as (chain & Hchain & Hbind).
    rewrite Hbind in Hlink. injection Hlink as <-.
    split; [done|]. exists (getNrOfJoints chain), (ChainJntToJacSolver chain).
    pose proof (Hsub _ _ Hchain). simpl. repeat split; [done | lia].
  - rewrite Hout, Hlink0 in Hlink; [done|].
    intros ([key' link'] & -> & Hin')%list_elem_of_fmap.
    apply elem_of_map_iter in Hin'. simpl in Hlink0.
    by rewrite Hlink0 in Hin'.
Qed.

Lemma evalConstraint_no_links (state : SolverState) (c : AvoidObstacles) :
  links_ c = ∅ → evalConstraint state c = Some ConstraintResults_new.
Proof. intros Hempty. unfold evalConstraint. by rewrite Hempty, map_iter_empty. Qed.

(** [evalConstraint] reads [links_] and [link_models_] only. *)
Lemma evalConstraint_ignores_flag (state : SolverState) (c : AvoidObstacles) (b : bool) :
  evalConstraint state (set_initialized b c) = evalConstraint state c.
Proof. reflexivity. Qed.

(** ** The worked inputs *)

Lemma near_data_lookup (d : R) :
  distance_info_map_ (near_data d) !! link_name_ example_link
  = Some (example_info d).
Proof. apply lookup_singleton_eq. Defined.

Lemma one_link_eq :
  one_link =
    {| initialized_ := false;
       links_ := {["link_1" := LinkAvoidance_new "link_1"]};
       link_names_ := ["link_1"];
       link_models_ := ∅;
       log_ := [] |}.
Proof. reflexivity. Defined.

Lemma one_link_links : links_ one_link = {["link_1" := LinkAvoidance_new "link_1"]}.
Proof. reflexivity. Defined.

Lemma example_link_avoidance : avoidance_distance_ example_link = 3 / 10.
Proof. reflexivity. Defined.

Lemma example_link_amplitude : amplitude_ example_link = 3 / 10.
Proof. reflexivity. Defined.

(** The end-to-end case of the specification: a chain of 3 joints, a link
    with 2 inboard joints and the default parameters, and a proximity
    entry at distance 0.05 with direction (1,0,0) and closest point
    (0,0,0.5). *)
Example end_to_end :
  checkStatus (near_data (1 / 20)) example_link = false
  ∧ calcError (near_data (1 / 20)) example_link
    = [Some (3 / 10 / (1 + exp (1 / 20 / (3 / 10 / (10 + 5)) - 5)))]
  ∧ ∃ j0 j1, calcJacobian (near_data (1 / 20)) example_link = Some [j0; j1; 0].
Proof.
  split; [|split].
  - unfold checkStatus. rewrite near_data_lookup. simpl.
    destruct (Rlt_dec _ _) as [|Hge]; [done|].
    exfalso. apply Hge. unfold DEFAULT_MIN_DISTANCE. lra.
  - by rewrite (calcError_found _ _ _ (near_data_lookup _)).
  - eexists _, _.
    by rewrite (calcJacobian_found (near_data (1 / 20)) example_link
                  (example_info (1 / 20)) 3 2 (ChainJntToJacSolver example_chain)
                  eq_refl eq_refl eq_refl
                  ltac:(lia) ltac:(simpl; lia) (near_data_lookup _)).
Qed.

Lemma calcError_formula_witness :
  calcError (near_data 0) example_link =
    [Some (amplitude_ example_link /
           (1 + exp (distance (example_info 0)
                     / (avoidance_distance_ example_link / (10 + 5)) - 5)))]
  ∧ calcError (near_data 0) example_link
    = [Some (amplitude_ example_link / (1 + exp (-5)))].
Proof.
  destruct (calcError_formula (near_data 0) example_link (example_info 0)
              (near_data_lookup 0)) as [Hformula Hzero].
  split; [exact Hformula|]. apply Hzero.
  - rewrite example_link_avoidance. lra.
  - reflexivity.
Defined.

Lemma calcError_monotone_witness :
  ∃ e1 e2, calcError (near_data (1 / 20)) example_link = [Some e1]
           ∧ calcError (near_data (1 / 10)) example_link = [Some e2]
           ∧ e1 >= e2.
Proof.
  apply (calcError_monotone example_link (near_data (1 / 20)) (near_data (1 / 10))
           (example_info (1 / 20)) (example_info (1 / 10))).
  - apply near_data_lookup.
  - apply near_data_lookup.
  - rewrite example_link_amplitude. lra.
  - rewrite example_link_avoidance. lra.
  - simpl. lra.
Defined.

Lemma calcJacobian_row_witness :
  ∃ row, calcJacobian (near_data (1 / 20)) example_link = Some row
    ∧ length row = 3%nat
    ∧ (∀ j, (2 ≤ j < 3)%nat → row !! j = Some 0)
    ∧ (distance_info_map_ (near_data (1 / 20)) !! link_name_ example_link = None →
       row = replicate 3 0)
    ∧ (∀ info,
         distance_info_map_ (near_data (1 / 20)) !! link_name_ example_link
         = Some info →
         ∀ j, (j < 2)%nat →
           row !! j =
             Some (projected_column (ChainJntToJacSolver example_chain)
                     (take 2 (joints (near_data (1 / 20)))) info j)).
Proof.
  apply (calcJacobian_row (near_data (1 / 20)) example_link 3 2
           (ChainJntToJacSolver example_chain)).
  - reflexivity.
  - reflexivity.
  - reflexivity.
  - lia.
  - simpl. lia.
Defined.

(** ** A link without a proximity entry *)

(** C3 (the code departs from the claim): for a bound link without a
    proximity entry, [calcError] returns its one coefficient as [resize]
    left it, never assigned, where the claim has 0; the Jacobian row is
    the zero row of [totalJoints] columns and the status is [true]. *)
Theorem calcError_missing_entry_unassigned :
  calcError quiet_data example_link = [None]
  ∧ calcError quiet_data example_link ≠ [Some 0]
  ∧ calcJacobian quiet_data example_link = Some [0; 0; 0]
  ∧ checkStatus quiet_data example_link = true.
Proof.
  assert (distance_info_map_ quiet_data !! link_name_ example_link = None)
    as Hfind by apply lookup_empty.
  rewrite (calcError_not_found _ _ Hfind).
  rewrite (calcJacobian_not_found quiet_data example_link 3 2 eq_refl eq_refl Hfind).
  rewrite (checkStatus_not_found _ _ Hfind). done.
Qed.

(** ** Binding *)

Lemma init_no_links (ik : Constrained_IK) (c : AvoidObstacles) :
  links_ c = ∅ → link_names_ c = [] →
  initialized_ (init ik c) = true
  ∧ link_names_ (init ik c) = getLinkNames ik
  ∧ links_ (init ik c) = ∅
  ∧ no_links_warning ∈ log_ (init ik c).
Proof.
  intros Hlinks Hnames. unfold init. simpl. rewrite Hnames. simpl.
  rewrite Hlinks, map_iter_empty. simpl.
  repeat split. apply elem_of_app. right. by apply list_elem_of_singleton.
Qed.

(** C5 (the code departs from the claim): [init] on a constraint without
    configured links copies the chain's link names into [link_names_]
    and warns, but registers no entry in [links_]; [evalConstraint],
    which loops over [links_], then returns the empty result, with no
    contribution for any link of the chain. *)
Theorem init_default_links_not_evaluated :
  link_names_ (init example_ik AvoidObstacles_new) = ["link_1"; "link_2"]
  ∧ no_links_warning ∈ log_ (init example_ik AvoidObstacles_new)
  ∧ links_ (init example_ik AvoidObstacles_new) = ∅
  ∧ ∀ state, evalConstraint state (init example_ik AvoidObstacles_new)
             = Some {| error := []; jacobian := []; status := true |}.
Proof.
  destruct (init_no_links example_ik AvoidObstacles_new eq_refl eq_refl)
    as (_ & Hnames & Hlinks & Hlog).
  split; [done|]. split; [done|]. split; [done|].
  intros state. by apply evalConstraint_no_links.
Qed.

Lemma init_one_link_example :
  initialized_ (init example_ik one_link) = true
  ∧ links_ (init example_ik one_link) = {["link_1" := example_link]}.
Proof.
  rewrite init_initialized, init_links, one_link_links, map_iter_singleton.
  simpl. by rewrite insert_singleton_eq.
Qed.

Lemma init_rebind_unresolvable :
  initialized_ (init unresolvable_ik (init example_ik one_link)) = false
  ∧ links_ (init unresolvable_ik (init example_ik one_link))
    = {["link_1" := bind_failed 3 example_link]}.
Proof.
  destruct init_one_link_example as [_ Hlinks].
  rewrite (init_initialized unresolvable_ik), (init_links unresolvable_ik).
  rewrite Hlinks, map_iter_singleton. clear Hlinks.
  simpl. rewrite insert_singleton_eq. split; reflexivity.
Qed.

Lemma evalConstraint_singleton (state : SolverState) (c : AvoidObstacles)
    (key : string) (link : LinkAvoidance) :
  links_ c = {[key := link]} →
  evalConstraint state c
  = tmp ← evalLink (AvoidObstaclesData_new state c) link;
    Some (append ConstraintResults_new tmp).
Proof.
  intros Hlinks. unfold evalConstraint. rewrite Hlinks, map_iter_singleton.
  simpl. by destruct (evalLink _ link).
Qed.

(** C6, the claim refuted: [link_1] was bound by an earlier [init]; a
    later [init] against kinematics that cannot resolve its sub-chain
    marks the constraint invalid. [evalConstraint] then still returns a
    contribution for the link and signals nothing: the all-zero one when
    the snapshot has no proximity entry, an ordinary one when it has. *)
Lemma evalConstraint_after_failed_bind :
  initialized_ (init unresolvable_ik (init example_ik one_link)) = false
  ∧ evalConstraint quiet_state (init unresolvable_ik (init example_ik one_link))
    = Some {| error := [None]; jacobian := [[0; 0; 0]]; status := true |}
  ∧ evalConstraint near_state (init unresolvable_ik (init example_ik one_link))
    = Some {| error := [Some (3 / 10 / (1 + exp (1 / 20 / (3 / 10 / (10 + 5)) - 5)))];
              jacobian := [[1; 1; 0]];
              status := false |}.
Proof.
  destruct init_rebind_unresolvable as [Hflag Hlinks].
  split; [exact Hflag|]. rewrite !(evalConstraint_singleton _ _ _ _ Hlinks).
  clear Hflag Hlinks.
  change (AvoidObstaclesData_new quiet_state _) with quiet_data.
  change (AvoidObstaclesData_new near_state _) with (near_data (1 / 20)).
  unfold evalLink. split.
  - assert (distance_info_map_ quiet_data
              !! link_name_ (bind_failed 3 example_link) = None)
      as Hfind by apply lookup_empty.
    rewrite (calcError_not_found _ _ Hfind).
    rewrite (calcJacobian_not_found quiet_data (bind_failed 3 example_link) 3 2
               eq_refl eq_refl Hfind).
    by rewrite (checkStatus_not_found _ _ Hfind).
  - assert (distance_info_map_ (near_data (1 / 20))
              !! link_name_ (bind_failed 3 example_link)
            = Some (example_info (1 / 20)))
      as Hfind by apply lookup_singleton_eq.
    rewrite (calcError_found _ _ _ Hfind).
    rewrite (calcJacobian_found (near_data (1 / 20)) (bind_failed 3 example_link)
               (example_info (1 / 20)) 3 2 (ChainJntToJacSolver example_chain)
               eq_refl eq_refl eq_refl ltac:(lia) ltac:(simpl; lia) Hfind).
    unfold checkStatus. rewrite Hfind.
    destruct (Rlt_dec _ _) as [|Hge];
      [|exfalso; apply Hge; simpl; unfold DEFAULT_MIN_DISTANCE; lra].
    cbn [mbind option_bind append error jacobian status ConstraintResults_new
         app andb fmap list_fmap seq replicate Nat.sub].
    unfold projected_column, vdot. cbn.
    replace (1 * (1 + (0 * (1 / 2) - 1 * 0)) + 0 * (0 + (1 * 0 - 0 * (1 / 2)))
             + 0 * (0 + (0 * 0 - 0 * 0))) with 1 by lra.
    reflexivity.
Qed.

(** When the very first [init] fails, the link it failed on has no
    inboard joint count yet, and [calcJacobian] sizes [link_jacobian]
    from that unset member: evaluation is not defined at all. *)
Remark evalConstraint_after_first_failed_bind (state : SolverState) :
  initialized_ (init unresolvable_ik one_link) = false
  ∧ evalConstraint state (init unresolvable_ik one_link) = None.
Proof.
  assert (links_ (init unresolvable_ik one_link)
          = {["link_1" := bind_failed 3 (LinkAvoidance_new "link_1")]}) as Hlinks.
  { rewrite init_links, one_link_links, map_iter_singleton. simpl.
    by rewrite insert_singleton_eq. }
  split.
  - rewrite init_initialized, one_link_links, map_iter_singleton. reflexivity.
  - by rewrite (evalConstraint_singleton _ _ _ _ Hlinks).
Qed.

(** C6 as amended: when some configured link has no sub-chain, [init]
    marks the constraint invalid, logs the error and leaves
    [link_models_] as it was; [evalConstraint] does not read the mark:
    it returns what it returns for the same object with the mark set. *)
Theorem failed_bind_is_reported_by_init_only (ik : Constrained_IK)
    (c : AvoidObstacles) (key : string) (link : LinkAvoidance) :
  links_ c !! key = Some link →
  getSubChain ik (link_name_ link) = None →
  initialized_ (init ik c) = false
  ∧ subchain_error ∈ log_ (init ik c)
  ∧ link_models_ (init ik c) = link_models_ c
  ∧ ∀ state, evalConstraint state (init ik c)
             = evalConstraint state (set_initialized true (init ik c)).
Proof.
  intros Hlink Hnone.
  assert (initialized_ (init ik c) = false) as Hflag.
  { apply init_failed_iff. eauto. }
  split; [done|]. rewrite init_initialized in Hflag.
  unfold init.
  case_decide; simpl;
    destruct (bind_links ik (map_iter (links_ c)) (links_ c)) as [links [|]];
    simpl in *; try done.
  - repeat split. apply elem_of_app. right. by apply list_elem_of_singleton.
  - repeat split. apply elem_of_app. right. by apply list_elem_of_singleton.
Qed.

Lemma failed_bind_is_reported_by_init_only_witness :
  initialized_ (init unresolvable_ik one_link) = false
  ∧ subchain_error ∈ log_ (init unresolvable_ik one_link)
  ∧ link_models_ (init unresolvable_ik one_link) = link_models_ one_link
  ∧ ∀ state, evalConstraint state (init unresolvable_ik one_link)
             = evalConstraint state
                 (set_initialized true (init unresolvable_ik one_link)).
Proof.
  apply (failed_bind_is_reported_by_init_only unresolvable_ik one_link
           "link_1" (LinkAvoidance_new "link_1")).
  - rewrite one_link_links. apply lookup_singleton_eq.
  - reflexivity.
Defined.

(** ** loadParameters *)

Lemma set_links_insert_id (c : AvoidObstacles) (name : string) (link : LinkAvoidance) :
  links_ c !! name = Some link → set_links (insert name link) c = c.
Proof.
  intros Hlink. destruct c as [flag links names models log]. unfold set_links.
  simpl in *. by rewrite insert_id.
Qed.

Lemma param_get_set (q p : param) (v : R) (link : LinkAvoidance) :
  param_get q (param_set p v link) = if decide (q = p) then v else param_get q link.
Proof. by destruct q, p. Qed.

Lemma param_get_new (p : param) (name : string) :
  param_get p (LinkAvoidance_new name) = param_default p.
Proof. by destruct p. Qed.

Lemma param_get_arr_apply (q p : param) (arr : list R) (i : nat) (link : LinkAvoidance) :
  param_get q (arr_apply p arr i link)
  = if decide (q = p) then default (param_get q link) (arr !! i)
    else param_get q link.
Proof.
  unfold arr_apply. destruct (arr !! i) as [v|]; simpl.
  - apply param_get_set.
  - by case_decide.
Qed.

Lemma applyArray_eq (p : param) (arr : list R) (name : string) (i : nat)
    (c : AvoidObstacles) (link : LinkAvoidance) :
  arr = [] ∨ (i < length arr)%nat →
  links_ c !! name = Some link →
  applyArray p arr name i c
  = Some (set_links (insert name (arr_apply p arr i link)) c).
Proof.
  intros [-> | Hi] Hlink.
  - simpl. unfold arr_apply. simpl. by rewrite set_links_insert_id.
  - destruct (lookup_lt_is_Some_2 arr i Hi) as [v Hv].
    unfold applyArray, arr_apply. rewrite Hv. destruct arr as [|x arr]; [done|].
    simpl. unfold setParam. by rewrite Hlink.
Qed.

Section LoadLoop.
Variables (link_names : list string).
Variables (amplitude minimum_distance avoidance_distance weight : list R).

Local Abbreviation arrs :=
  (arrs amplitude minimum_distance avoidance_distance weight).
Local Abbreviation step_link :=
  (step_link amplitude minimum_distance avoidance_distance weight).

Hypothesis arrs_sizes : ∀ p, arrs p = [] ∨ length (arrs p) = length link_names.

Lemma param_get_step_link (q : param) (i : nat) (link : LinkAvoidance) :
  param_get q (step_link i link)
  = default (param_get q link) (arrs q !! i).
Proof.
  unfold step_link. rewrite !param_get_arr_apply. by destruct q.
Qed.

Lemma addAvoidanceLink_lookup (name : string) (c : AvoidObstacles) :
  links_ (addAvoidanceLink name c) !! name = Some (base_link name c)
  ∧ log_ (addAvoidanceLink name c) = log_ c
  ∧ <[name := base_link name c]> (links_ c) = links_ (addAvoidanceLink name c).
Proof.
  unfold addAvoidanceLink, base_link.
  destruct (links_ c !! name) as [link|] eqn:Hlink; simpl.
  - by rewrite insert_id.
  - by rewrite lookup_insert_eq.
Qed.

Lemma loadLink_step (i : nat) (name : string) (c : AvoidObstacles) :
  link_names !! i = Some name →
  ∃ c', loadLink link_names amplitude minimum_distance avoidance_distance
          weight i c = Some c'
    ∧ log_ c' = log_ c
    ∧ links_ c' = <[name := step_link i (base_link name c)]> (links_ c).
Proof.
  intros Hname. apply lookup_lt_Some in Hname as Hi.
  assert (∀ p, arrs p = [] ∨ (i < length (arrs p))%nat) as Hfit.
  { intros p. destruct (arrs_sizes p) as [? | ->]; auto. }
  destruct (addAvoidanceLink_lookup name c) as (Hadd & Hlog & Hlinks).
  unfold loadLink. rewrite Hname. simpl.
  rewrite (applyArray_eq Amplitude amplitude _ _ _ _ (Hfit Amplitude) Hadd). simpl.
  erewrite (applyArray_eq MinDistance minimum_distance _ _ _ _ (Hfit MinDistance));
    [|apply lookup_insert_eq]. simpl.
  erewrite (applyArray_eq AvoidanceDistance avoidance_distance _ _ _ _
              (Hfit AvoidanceDistance));
    [|apply lookup_insert_eq]. simpl.
  erewrite (applyArray_eq Weight weight _ _ _ _ (Hfit Weight));
    [|apply lookup_insert_eq].
  eexists. split; [done|]. simpl. split; [done|].
  rewrite !insert_insert_eq, <- Hlinks. by rewrite insert_insert_eq.
Qed.

(** The state after the first [k] passes of the loop. *)
Lemma loadLinks_prefix (c : AvoidObstacles) (k : nat) :
  (k ≤ length link_names)%nat →
  ∃ ck, loadLinks link_names amplitude minimum_distance avoidance_distance
          weight (seq 0 k) c = Some ck
    ∧ log_ ck = log_ c
    ∧ (∀ name, (∀ i, (i < k)%nat → link_names !! i ≠ Some name) →
         links_ ck !! name = links_ c !! name)
    ∧ (∀ name i, (i < k)%nat → link_names !! i = Some name →
         ∃ link, links_ ck !! name = Some link
           ∧ ∀ p,
               (arrs p = [] → param_get p link = param_get p (base_link name c))
               ∧ (∀ v, (∀ j, (i < j < k)%nat → link_names !! j ≠ Some name) →
                       arrs p !! i = Some v → param_get p link = v)).
Proof.
  induction k as [|k IH]; intros Hk.
  - exists c. split; [done|]. split; [done|]. split; [done|]. intros; lia.
  - destruct IH as (ck & Hrun & Hlog & Hout & Hin); [lia|].
    destruct (lookup_lt_is_Some_2 link_names k) as [nk Hnk]; [lia|].
    destruct (loadLink_step k nk ck Hnk) as (c' & Hstep & Hlog' & Hlinks').
    exists c'. split.
    { unfold loadLinks in *. rewrite seq_S, foldl_snoc, Hrun. exact Hstep. }
    split; [congruence|]. split.
    + intros name Hfresh. rewrite Hlinks'.
      rewrite lookup_insert_ne by (intros ->; by apply (Hfresh k); [lia|]).
      apply Hout. intros i Hi. apply Hfresh. lia.
    + intros name i Hi Hname. rewrite Hlinks'.
      destruct (decide (name = nk)) as [-> | Hne].
      * rewrite lookup_insert_eq. eexists. split; [done|].
        intros p. rewrite param_get_step_link. split.
        -- intros Hempty. rewrite Hempty. simpl. unfold base_link at 1.
           destruct (decide (nk ∈ take k link_names)) as [Hseen | Hnew].
           ++ apply elem_of_take in Hseen as (i' & Hi' & Hlt).
              destruct (Hin nk i' Hlt Hi') as (link & Hlink & Hparams).
              rewrite Hlink. simpl. by apply (proj1 (Hparams p)).
           ++ rewrite Hout; [done|]. intros i' Hlt Hi'.
              apply Hnew, elem_of_take. eauto.
        -- intros v Hlast Hv.
           destruct (decide (i = k)) as [-> | Hik].
           ++ by rewrite Hv.
           ++ exfalso. apply (Hlast k); [lia | done].
      * assert (i ≠ k) as Hik by (intros ->; congruence).
        rewrite lookup_insert_ne by done.
        destruct (Hin name i) as (link & Hlink & Hparams); [lia | done |].
        exists link. split; [done|]. intros p.
        destruct (Hparams p) as [Hkeep Hset]. split; [done|].
        intros v Hlast Hv. apply Hset; [|done].
        intros j Hj. apply Hlast. lia.
Qed.
End LoadLoop.

Lemma kept_array_size (p : param) (xml : XmlRpcValue) (link_names : list string) :
  kept_array p xml link_names = []
  ∨ length (kept_array p xml link_names) = length link_names.
Proof.
  unfold kept_array. destruct (xml_member p xml) as [arr|]; [|by left].
  case_decide as Hsize; [by left|]. right. congruence.
Qed.

Lemma kept_array_mismatch (p : param) (xml : XmlRpcValue) (link_names : list string)
    (arr : list R) :
  xml_member p xml = Some arr → length arr ≠ length link_names →
  kept_array p xml link_names = [].
Proof. intros Hmember Hsize. unfold kept_array. rewrite Hmember. by case_decide. Qed.

Lemma kept_array_match (p : param) (xml : XmlRpcValue) (link_names : list string)
    (arr : list R) :
  xml_member p xml = Some arr → length arr = length link_names →
  kept_array p xml link_names = arr.
Proof.
  intros Hmember Hsize. unfold kept_array. rewrite Hmember.
  case_decide; [congruence | done].
Qed.

Lemma readArray_spec (p : param) (xml : XmlRpcValue) (link_names : list string)
    (c : AvoidObstacles) :
  ∃ c', readArray p xml link_names c = (kept_array p xml link_names, c')
    ∧ links_ c' = links_ c
    ∧ (∀ msg, msg ∈ log_ c → msg ∈ log_ c')
    ∧ (∀ arr, xml_member p xml = Some arr → length arr ≠ length link_names →
              size_warning p ∈ log_ c').
Proof.
  unfold readArray, kept_array.
  destruct (xml_member p xml) as [arr|]; [case_decide as Hsize|].
  - eexists. split; [done|]. split; [done|]. simpl. split.
    + intros msg Hmsg. apply elem_of_app. by left.
    + intros _ _ _. apply elem_of_app. right. by apply list_elem_of_singleton.
  - exists c. split; [done|]. split; [done|]. split; [done|].
    intros arr' [= <-] Hne. by destruct Hsize.
  - eexists. split; [done|]. split; [done|]. simpl. split.
    + intros msg Hmsg. apply elem_of_app. by left.
    + by intros arr [=].
Qed.

(** What [loadParameters] leaves behind when the link-name list can be
    retrieved: every size mismatch is in the log, and every listed link
    is registered; a parameter whose array was not kept is as it was
    before the call for a link already registered and the default for a
    new one, a parameter whose array was kept has the array's value. *)
Lemma loadParameters_links (xml : XmlRpcValue) (c : AvoidObstacles)
    (link_names : list string) :
  xml_link_names xml = Some link_names →
  ∃ c', loadParameters xml c = Some c'
    ∧ (∀ p arr, xml_member p xml = Some arr → length arr ≠ length link_names →
         size_warning p ∈ log_ c')
    ∧ (∀ name i, link_names !! i = Some name →
         ∃ link, links_ c' !! name = Some link
           ∧ ∀ p,
               (kept_array p xml link_names = [] →
                param_get p link = param_get p (base_link name c))
               ∧ (∀ v, (∀ j, (i < j)%nat → link_names !! j ≠ Some name) →
                       kept_array p xml link_names !! i = Some v →
                       param_get p link = v)).
Proof.
  intros Hnames. unfold loadParameters. rewrite Hnames.
  destruct (readArray_spec Amplitude xml link_names c)
    as (c1 & -> & Hlinks1 & Hlog1 & Hwarn1).
  destruct (readArray_spec MinDistance xml link_names c1)
    as (c2 & -> & Hlinks2 & Hlog2 & Hwarn2).
  destruct (readArray_spec AvoidanceDistance xml link_names c2)
    as (c3 & -> & Hlinks3 & Hlog3 & Hwarn3).
  destruct (readArray_spec Weight xml link_names c3)
    as (c4 & -> & Hlinks4 & Hlog4 & Hwarn4).
  set (amplitude := kept_array Amplitude xml link_names).
  set (minimum_distance := kept_array MinDistance xml link_names).
  set (avoidance_distance := kept_array AvoidanceDistance xml link_names).
  set (weight := kept_array Weight xml link_names).
  assert (∀ q, arrs amplitude minimum_distance avoidance_distance weight q
               = kept_array q xml link_names) as Harrs by (by intros []).
  destruct (loadLinks_prefix link_names amplitude minimum_distance
              avoidance_distance weight) with (c := c4) (k := length link_names)
    as (c' & Hrun & Hlog & _ & Hin); [|done|].
  { intros q. rewrite Harrs. apply kept_array_size. }
  assert (∀ name, base_link name c4 = base_link name c) as Hbase.
  { intros name. unfold base_link. congruence. }
  exists c'. split; [done|]. split.
  - intros p arr Hmember Hsize. rewrite Hlog. destruct p; eauto.
  - intros name i Hi.
    destruct (Hin name i) as (link & Hlink & Hparams);
      [by eapply lookup_lt_Some | done |].
    exists link. split; [done|]. intros p.
    destruct (Hparams p) as [Hkeep Hset]. rewrite Harrs, Hbase in *.
    split; [done|]. intros v Hlast Hv. apply Hset; [|done].
    intros j [Hj _]. by apply Hlast.
Qed.

(** C9 as amended: when one parameter array is present with a length
    other than that of the link-name list, [loadParameters] logs the
    size warning and does not write that parameter for any listed link:
    a link that this load registers has the default, a link registered
    before keeps the value it had; every other array of the right length
    is still applied: the link named at index [i] gets the array's value
    at [i] (at its last index, for a name listed more than once). *)
Theorem loadParameters_size_mismatch_not_written (p : param) (xml : XmlRpcValue)
    (c : AvoidObstacles) (link_names : list string) (arr : list R) :
  xml_link_names xml = Some link_names →
  xml_member p xml = Some arr →
  length arr ≠ length link_names →
  ∃ c', loadParameters xml c = Some c'
    ∧ size_warning p ∈ log_ c'
    ∧ (∀ name, name ∈ link_names →
         ∃ link, links_ c' !! name = Some link
                 ∧ param_get p link
                   = match links_ c !! name with
                     | Some old => param_get p old
                     | None => param_default p
                     end)
    ∧ (∀ q arr_q, q ≠ p → xml_member q xml = Some arr_q →
         length arr_q = length link_names →
         ∀ i name v, link_names !! i = Some name → arr_q !! i = Some v →
           (∀ j, (i < j)%nat → link_names !! j ≠ Some name) →
           ∃ link, links_ c' !! name = Some link ∧ param_get q link = v).
Proof.
  intros Hnames Hmember Hsize.
  destruct (loadParameters_links xml c link_names Hnames)
    as (c' & Hload & Hwarn & Hlinks).
  exists c'. split; [done|]. split; [by eapply Hwarn|]. split.
  - intros name (i & Hi)%list_elem_of_lookup.
    destruct (Hlinks name i Hi) as (link & Hlink & Hparams).
    exists link. split; [done|].
    destruct (Hparams p) as [Hkeep _].
    rewrite Hkeep by (by eapply kept_array_mismatch).
    unfold base_link. destruct (links_ c !! name); [done|]. apply param_get_new.
  - intros q arr_q _ Hmember_q Hsize_q i name v Hi Hv Hlast.
    destruct (Hlinks name i Hi) as (link & Hlink & Hparams).
    exists link. split; [done|].
    destruct (Hparams q) as [_ Hset]. apply Hset; [done|].
    by rewrite (kept_array_match _ _ _ _ Hmember_q Hsize_q).
Qed.

Lemma loadParameters_size_mismatch_not_written_witness :
  ∃ c', loadParameters example_xml tuned = Some c'
    ∧ size_warning Amplitude ∈ log_ c'
    ∧ (∀ name, name ∈ ["link_1"; "link_2"] →
         ∃ link, links_ c' !! name = Some link
                 ∧ param_get Amplitude link
                   = match links_ tuned !! name with
                     | Some old => param_get Amplitude old
                     | None => param_default Amplitude
                     end)
    ∧ (∀ q arr_q, q ≠ Amplitude → xml_member q example_xml = Some arr_q →
         length arr_q = length ["link_1"; "link_2"] →
         ∀ i name v, ["link_1"; "link_2"] !! i = Some name → arr_q !! i = Some v →
           (∀ j, (i < j)%nat → ["link_1"; "link_2"] !! j ≠ Some name) →
           ∃ link, links_ c' !! name = Some link ∧ param_get q link = v).
Proof.
  apply (loadParameters_size_mismatch_not_written Amplitude example_xml tuned
           ["link_1"; "link_2"] [1]).
  - reflexivity.
  - reflexivity.
  - simpl. lia.
Defined.

(** C9, the claim refuted: [link_1] gets the amplitude 0.5 from a first,
    well-formed configuration; a second configuration whose amplitude
    array has the wrong length logs the warning and leaves [link_1] at
    0.5, which is not the default 0.3. *)
Lemma loadParameters_size_mismatch_keeps_loaded_value :
  ∃ c1 c2 link,
    loadParameters full_xml AvoidObstacles_new = Some c1
    ∧ loadParameters example_xml c1 = Some c2
    ∧ size_warning Amplitude ∈ log_ c2
    ∧ links_ c2 !! "link_1" = Some link
    ∧ amplitude_ link = 1 / 2
    ∧ amplitude_ link ≠ DEFAULT_AMPLITUDE.
Proof.
  destruct (loadParameters_links full_xml AvoidObstacles_new
              ["link_1"; "link_2"] eq_refl) as (c1 & Hload1 & _ & Hlinks1).
  destruct (loadParameters_links example_xml c1
              ["link_1"; "link_2"] eq_refl) as (c2 & Hload2 & Hwarn2 & Hlinks2).
  destruct (Hlinks1 "link_1" 0%nat eq_refl) as (link1 & Hlink1 & Hparams1).
  destruct (Hlinks2 "link_1" 0%nat eq_refl) as (link2 & Hlink2 & Hparams2).
  assert (amplitude_ link1 = 1 / 2) as Hloaded.
  { apply (proj2 (Hparams1 Amplitude)); [|reflexivity].
    intros [|[|j]] Hj; [lia | done | done]. }
  assert (amplitude_ link2 = 1 / 2) as Hkept.
  { rewrite <- Hloaded.
    rewrite (proj1 (Hparams2 Amplitude) eq_refl : amplitude_ link2 = _).
    unfold base_link. by rewrite Hlink1. }
  exists c1, c2, link2. split; [done|]. split; [done|].
  split; [apply (Hwarn2 Amplitude [1]); [reflexivity | simpl; lia]|].
  split; [done|]. split; [done|].
  rewrite Hkept. unfold DEFAULT_AMPLITUDE. lra.
Qed.

Lemma init_example_ik_bound (key : string) (link : LinkAvoidance) :
  links_ (init example_ik one_link) !! key = Some link →
  bound 3 (state_joints near_state) link.
Proof.
  apply (init_bound example_ik one_link (state_joints near_state)).
  - rewrite init_initialized. apply bind_links_true, Forall_forall.
    intros it _. by eexists.
  - intros name chain [= <-]. simpl. lia.
  - reflexivity.
Defined.

Lemma evalConstraint_dimensions_witness :
  let cdata := AvoidObstaclesData_new near_state (init example_ik one_link) in
  (∀ key link, links_ (init example_ik one_link) !! key = Some link →
     length (calcError cdata link) = 1%nat
     ∧ ∃ row, calcJacobian cdata link = Some row ∧ length row = 3%nat)
  ∧ ∃ out, evalConstraint near_state (init example_ik one_link) = Some out
      ∧ length (error out) = size (links_ (init example_ik one_link))
      ∧ length (jacobian out) = size (links_ (init example_ik one_link))
      ∧ Forall (λ row, length row = 3%nat) (jacobian out).
Proof.
  apply (evalConstraint_dimensions near_state (init example_ik one_link) 3).
  exact init_example_ik_bound.
Defined.

(** * Further properties of the Jacobian row *)

(** X5: [calcJacobian] needs both joint counts on every path; without a
    proximity entry it needs nothing else (the solver and the joint
    values are not touched), with an entry it is defined exactly when
    the solver is set, the joint vector has [inboardJoints] values and
    the block fits in the row. *)
Theorem calcJacobian_defined_iff (cdata : AvoidObstaclesData) (link : LinkAvoidance) :
  is_Some (calcJacobian cdata link) ↔
  ∃ inboard total,
    num_inboard_joints_ link = Some inboard
    ∧ num_robot_joints_ link = Some total
    ∧ (is_Some (distance_info_map_ cdata !! link_name_ link) →
       is_Some (jac_solver_ link)
       ∧ (inboard ≤ length (joints cdata))%nat
       ∧ (inboard ≤ total)%nat).
Proof.
  unfold calcJacobian.
  destruct (num_inboard_joints_ link) as [inboard|]; simpl;
    [|split; [by intros [? [=]] | by intros (? & ? & [=] & _)]].
  destruct (num_robot_joints_ link) as [total|]; simpl;
    [|split; [by intros [? [=]] | by intros (? & ? & _ & [=] & _)]].
  destruct (distance_info_map_ cdata !! link_name_ link) as [info|]; simpl.
  - unfold joint_array. case_decide as Hq; simpl.
    + destruct (jac_solver_ link) as [solver|]; simpl.
      * rewrite project_changeRefPoint. unfold block_assign, setZero.
        rewrite length_fmap, length_seq, length_replicate.
        case_decide as Hfit.
        -- split; [|by eexists]. intros _. exists inboard, total. eauto.
        -- split; [by intros [? [=]]|].
           intros (? & ? & [= <-] & [= <-] & Hneed).
           destruct Hneed as (_ & _ & ?); [by eexists | lia].
      * split; [by intros [? [=]]|].
        intros (? & ? & _ & _ & Hneed).
        destruct Hneed as ([? [=]] & _); by eexists.
    + split; [by intros [? [=]]|].
      intros (? & ? & [= <-] & _ & Hneed).
      destruct Hneed as (_ & ? & _); [by eexists | lia].
  - split; [|by eexists]. intros _. exists inboard, total.
    split; [done|]. split; [done|]. by intros [? [=]].
Qed.

Lemma vdot_vscale_opp (a v : Vector3) : vdot (vscale (-1) a) v = - vdot a v.
Proof. unfold vdot, vscale. simpl. ring. Qed.

(** X6: reversing the avoidance vector reverses the Jacobian row: for
    the same joint values and closest point, an entry whose avoidance
    vector is the opposite one gives the row with every coefficient
    negated. *)
Theorem calcJacobian_opposite_direction (cdata cdata' : AvoidObstaclesData)
    (link : LinkAvoidance) (info : DistanceInfo)
    (total inboard : nat) (solver : JacSolver) :
  num_robot_joints_ link = Some total →
  num_inboard_joints_ link = Some inboard →
  jac_solver_ link = Some solver →
  (inboard ≤ total)%nat →
  (inboard ≤ length (joints cdata))%nat →
  joints cdata' = joints cdata →
  distance_info_map_ cdata !! link_name_ link = Some info →
  distance_info_map_ cdata' !! link_name_ link = Some (scaled_info (-1) info) →
  ∃ row, calcJacobian cdata link = Some row
         ∧ calcJacobian cdata' link = Some (Ropp <$> row).
Proof.
  intros Htotal Hinboard Hsolver Hle Hq Hjoints Hfind Hfind'.
  eexists. split; [by eapply calcJacobian_found|].
  erewrite calcJacobian_found; [|done..| by rewrite Hjoints | done].
  rewrite Hjoints, fmap_app, fmap_replicate, Ropp_0, <- list_fmap_compose.
  do 2 f_equal. apply list_fmap_ext. intros _ j _.
  unfold projected_column. simpl. apply vdot_vscale_opp.
Qed.

(** * Further properties of init *)

Lemma map_iter_sorted {A} (m : gmap string A) :
  StronglySorted (λ a b : string * A, String.le a.1 b.1) (map_iter m).
Proof.
  assert (Transitive (λ a b : string * A, String.le a.1 b.1)).
  { intros x y z ??. by etrans. }
  assert (Total (λ a b : string * A, String.le a.1 b.1)).
  { intros x y. apply (total String.le). }
  apply StronglySorted_merge_sort; apply _.
Qed.

Lemma bind_links_app_fail (ik : Constrained_IK)
    (pre post : list (string * LinkAvoidance)) (key0 : string)
    (link0 : LinkAvoidance) (links : gmap string LinkAvoidance) :
  Forall (λ it, is_Some (getSubChain ik (link_name_ it.2))) pre →
  getSubChain ik (link_name_ link0) = None →
  bind_links ik (pre ++ (key0, link0) :: post) links
  = (<[key0 := bind_failed (numJoints ik) link0]> (bind_links ik pre links).1,
     false).
Proof.
  intros Hpre Hfail. revert links.
  induction Hpre as [|[key link] pre [chain Hchain] _ IH]; intros links; simpl.
  - by rewrite Hfail.
  - simpl in Hchain. rewrite Hchain. apply IH.
Qed.

(** The binding loop reads and writes the two joint counts and the
    solver only. *)
Lemma bind_links_config (ik : Constrained_IK) (its : list (string * LinkAvoidance))
    (links : gmap string LinkAvoidance) (key : string) :
  NoDup its.*1 →
  (∀ k l, (k, l) ∈ its → links !! k = Some l) →
  match links !! key, (bind_links ik its links).1 !! key with
  | Some l, Some l' =>
      link_name_ l' = link_name_ l ∧ ∀ p, param_get p l' = param_get p l
  | None, None => True
  | _, _ => False
  end.
Proof.
  revert links. induction its as [|[key0 link0] its IH]; intros links Hnodup Hits.
  - simpl. by destruct (links !! key).
  - apply NoDup_cons in Hnodup as [Hfresh Hnodup].
    assert (links !! key0 = Some link0) as Hkey0 by (apply Hits; left).
    assert (∀ new, ∀ k l, (k, l) ∈ its → <[key0 := new]> links !! k = Some l)
      as Hrest.
    { intros new k l Hin. rewrite lookup_insert_ne; [apply Hits; by right|].
      intros <-. apply Hfresh, list_elem_of_fmap. by exists (key0, l). }
    simpl. destruct (getSubChain ik (link_name_ link0)) as [chain|]; simpl.
    + pose proof (IH _ Hnodup (Hrest (bind_ok (numJoints ik) chain link0))) as Hind.
      set (res := (bind_links ik its _).1) in *.
      destruct (decide (key = key0)) as [-> | Hne].
      * rewrite lookup_insert_eq in Hind. rewrite Hkey0.
        destruct (res !! key0) as [l'|]; [|done].
        destruct Hind as [Hname Hparams]. split; [done|].
        intros p. rewrite Hparams. by destruct p.
      * by rewrite lookup_insert_ne in Hind.
    + destruct (decide (key = key0)) as [-> | Hne].
      * rewrite lookup_insert_eq, Hkey0. split; [done|]. by intros [].
      * rewrite lookup_insert_ne by done. by destruct (links !! key).
Qed.

(** X7: [init] never changes the set of configured links, their names or
    their four avoidance parameters, whether it succeeds or fails. *)
Theorem init_keeps_configuration (ik : Constrained_IK) (c : AvoidObstacles)
    (key : string) :
  (links_ (init ik c) !! key = None ↔ links_ c !! key = None)
  ∧ ∀ link link', links_ c !! key = Some link →
                  links_ (init ik c) !! key = Some link' →
                  link_name_ link' = link_name_ link
                  ∧ ∀ p, param_get p link' = param_get p link.
Proof.
  rewrite init_links.
  pose proof (bind_links_config ik (map_iter (links_ c)) (links_ c) key
                (NoDup_fst_map_iter _)
                (λ k l0, proj1 (elem_of_map_iter _ k l0))) as Hconfig.
  destruct (links_ c !! key) as [l|];
    destruct ((bind_links ik (map_iter (links_ c)) (links_ c)).1 !! key)
      as [l'|]; try done.
  split; [done|]. by intros ?? [= <-] [= <-].
Qed.

(** X8: when the sub-chain of every configured link can be built, [init]
    gives every link the chain's joint count, its sub-chain's joint
    count and a solver for that sub-chain. *)
Theorem init_binds_every_link (ik : Constrained_IK) (c : AvoidObstacles) :
  (∀ key link, links_ c !! key = Some link →
               is_Some (getSubChain ik (link_name_ link))) →
  ∀ key link, links_ c !! key = Some link →
    ∃ chain, getSubChain ik (link_name_ link) = Some chain
      ∧ links_ (init ik c) !! key = Some (bind_ok (numJoints ik) chain link).
Proof.
  intros Hall.
  assert ((bind_links ik (map_iter (links_ c)) (links_ c)).2 = true) as Hok.
  { apply bind_links_true, Forall_forall.
    intros [key link] Hin%elem_of_map_iter. by eapply Hall. }
  rewrite init_links.
  intros key link Hlink.
  by apply (bind_links_lookup ik (map_iter (links_ c)) (links_ c)
              (NoDup_fst_map_iter _) Hok), elem_of_map_iter.
Qed.

(** X9: [init] binds in the order of the link names and returns at the
    first link whose sub-chain cannot be built: the links before it are
    bound, that link has received the chain's joint count only, and the
    links after it are as they were. *)
Theorem init_stops_at_first_failure (ik : Constrained_IK) (c : AvoidObstacles)
    (key0 : string) (link0 : LinkAvoidance) :
  links_ c !! key0 = Some link0 →
  getSubChain ik (link_name_ link0) = None →
  (∀ key link, links_ c !! key = Some link → String.le key key0 → key ≠ key0 →
               is_Some (getSubChain ik (link_name_ link))) →
  initialized_ (init ik c) = false
  ∧ links_ (init ik c) !! key0 = Some (bind_failed (numJoints ik) link0)
  ∧ (∀ key link, links_ c !! key = Some link → String.le key key0 → key ≠ key0 →
       ∃ chain, getSubChain ik (link_name_ link) = Some chain
         ∧ links_ (init ik c) !! key = Some (bind_ok (numJoints ik) chain link))
  ∧ (∀ key, ¬ String.le key key0 → links_ (init ik c) !! key = links_ c !! key).
Proof.
  intros Hkey0 Hfail Hbefore. rewrite init_initialized, init_links.
  pose proof (map_iter_sorted (links_ c)) as Hsorted.
  pose proof (NoDup_fst_map_iter (links_ c)) as Hnodup.
  assert (∀ k l, (k, l) ∈ map_iter (links_ c) → links_ c !! k = Some l) as Hmap.
  { intros k l. apply elem_of_map_iter. }
  assert (∀ k l, links_ c !! k = Some l → (k, l) ∈ map_iter (links_ c)) as Hiter.
  { intros k l. apply elem_of_map_iter. }
  destruct (list_elem_of_split _ _ (Hiter _ _ Hkey0)) as (pre & post & Hsplit).
  rewrite Hsplit in Hsorted, Hnodup, Hmap, Hiter |- *. clear Hsplit.
  apply StronglySorted_app in Hsorted as (Hle_pre & _ & Hsorted).
  apply StronglySorted_cons in Hsorted as [Hle_post _].
  rewrite Forall_forall in Hle_post.
  rewrite fmap_app, fmap_cons in Hnodup.
  apply NoDup_app in Hnodup as (Hnodup_pre & Hdisjoint & _). simpl in Hdisjoint.
  assert (∀ k l, (k, l) ∈ pre → String.le k key0 ∧ k ≠ key0) as Hpre.
  { intros k l Hin. split.
    - apply (Hle_pre (k, l) (key0, link0)); [done | left].
    - intros ->. apply (Hdisjoint key0); [|left].
      apply list_elem_of_fmap. by exists (key0, l). }
  assert (Forall (λ it, is_Some (getSubChain ik (link_name_ it.2))) pre) as Hall.
  { apply Forall_forall. intros [k l] Hin. destruct (Hpre k l Hin).
    apply (Hbefore k l); [|done..]. apply Hmap, elem_of_app. by left. }
  rewrite (bind_links_app_fail _ _ _ _ _ _ Hall Hfail). simpl.
  destruct (bind_links_lookup ik pre (links_ c) Hnodup_pre)
    as [Hin Hout]; [by apply bind_links_true|].
  split; [done|]. split; [apply lookup_insert_eq|]. split.
  - intros key link Hlink Hle Hne. rewrite lookup_insert_ne by done.
    apply Hiter in Hlink.
    apply elem_of_app in Hlink as [Hlink | Hlink]; [by apply Hin|].
    apply elem_of_cons in Hlink as [[= -> ->] | Hlink]; [done|].
    destruct Hne. apply (anti_symm String.le); [done|].
    by apply (Hle_post (key, link)).
  - intros key Hnle.
    assert (key ≠ key0) as Hne by (intros ->; by apply Hnle).
    rewrite lookup_insert_ne by done. apply Hout.
    intros ([k l] & -> & Hin')%list_elem_of_fmap.
    apply Hnle. by apply (Hpre k l).
Qed.

Lemma init_link_names (ik : Constrained_IK) (c : AvoidObstacles) :
  link_names_ (init ik c)
  = match link_names_ c with [] => getLinkNames ik | _ => link_names_ c end.
Proof.
  unfold init. case_decide as Hempty; simpl in *;
    destruct (bind_links ik (map_iter (links_ c)) (links_ c)) as [links [|]];
    simpl; by destruct (link_names_ c).
Qed.

(** X10: after a successful [init] the links sent to the collision query
    are those that were there before together with the link models of
    the group that are named in [link_names_], where an empty
    [link_names_] has first been replaced by the names of all links of
    the chain. *)
Theorem init_link_models (ik : Constrained_IK) (c : AvoidObstacles) (name : string) :
  (∀ key link, links_ c !! key = Some link →
               is_Some (getSubChain ik (link_name_ link))) →
  link_names_ (init ik c)
  = match link_names_ c with [] => getLinkNames ik | _ => link_names_ c end
  ∧ (name ∈ link_models_ (init ik c) ↔
     name ∈ link_models_ c
     ∨ (name ∈ getLinkModels ik ∧ name ∈ link_names_ (init ik c))).
Proof.
  intros Hall. split; [apply init_link_names|].
  assert ((bind_links ik (map_iter (links_ c)) (links_ c)).2 = true) as Hok.
  { apply bind_links_true, Forall_forall.
    intros [key link] Hin%elem_of_map_iter. by eapply Hall. }
  rewrite init_link_names. unfold init.
  case_decide as Hempty; simpl in *;
    destruct (bind_links ik (map_iter (links_ c)) (links_ c)) as [links ok];
    simpl in Hok; subst ok; simpl;
    rewrite elem_of_union, elem_of_list_to_set, list_elem_of_filter;
    destruct (link_names_ c); simpl in *; first [done | lia | tauto].
Qed.

(** * Further properties of evalConstraint *)

(** What the loop of [evalConstraint] returns when the row of every link
    can be computed. *)
Lemma evalLinks_exact (cdata : AvoidObstaclesData)
    (its : list (string * LinkAvoidance)) (output : ConstraintResults) :
  Forall (λ it, is_Some (calcJacobian cdata it.2)) its →
  ∃ rows, Forall2 (λ it row, calcJacobian cdata it.2 = Some row) its rows
    ∧ evalLinks cdata its output
      = Some {| error := error output ++ (its ≫= λ it, calcError cdata it.2);
                jacobian := jacobian output ++ rows;
                status := status output
                          && forallb (λ it, checkStatus cdata it.2) its |}.
Proof.
  intros Hall. revert output.
  induction Hall as [|it its [row Hrow] _ IH]; intros output.
  - exists []. split; [constructor|]. simpl.
    rewrite !app_nil_r, andb_true_r. by destruct output.
  - destruct (IH (append output
                    {| error := calcError cdata it.2; jacobian := [row];
                       status := checkStatus cdata it.2 |}))
      as (rows & Hrows & Heval).
    exists (row :: rows). split; [by constructor|].
    simpl. unfold evalLink. rewrite Hrow. simpl. rewrite Heval. simpl.
    by rewrite <- !app_assoc, andb_assoc.
Qed.

Lemma bound_calcJacobian_is_Some (state : SolverState) (c : AvoidObstacles)
    (total : nat) :
  (∀ key link, links_ c !! key = Some link →
               bound total (state_joints state) link) →
  Forall (λ it, is_Some (calcJacobian (AvoidObstaclesData_new state c) it.2))
         (map_iter (links_ c)).
Proof.
  intros Hbound. apply Forall_forall. intros [key link] Hin%elem_of_map_iter.
  destruct (calcJacobian_bound (AvoidObstaclesData_new state c) link total)
    as (row & Hrow & _); [by eapply Hbound | by eexists].
Qed.

Lemma checkStatus_true_iff (cdata : AvoidObstaclesData) (link : LinkAvoidance) :
  checkStatus cdata link = true ↔
  ∀ info, distance_info_map_ cdata !! link_name_ link = Some info →
          min_distance_ link <= distance info.
Proof.
  unfold checkStatus.
  destruct (distance_info_map_ cdata !! link_name_ link) as [info|]; [|done].
  destruct (Rlt_dec (distance info) (min_distance_ link)) as [Hlt|Hge].
  - split; [done|]. intros Hall. specialize (Hall info eq_refl). lra.
  - split; [|done]. intros _ info' [= <-]. lra.
Qed.

(** X11: the overall status that [evalConstraint] returns for bound links
    is [true] exactly when no configured link has a proximity entry
    closer than its minimum distance. *)
Theorem evalConstraint_status_iff (state : SolverState) (c : AvoidObstacles)
    (total : nat) :
  (∀ key link, links_ c !! key = Some link →
               bound total (state_joints state) link) →
  ∃ out, evalConstraint state c = Some out
    ∧ (status out = true ↔
       ∀ key link info,
         links_ c !! key = Some link →
         collision_robot state (link_models_ c) !! link_name_ link = Some info →
         min_distance_ link <= distance info).
Proof.
  intros Hbound.
  destruct (evalLinks_exact _ _ ConstraintResults_new
              (bound_calcJacobian_is_Some state c total Hbound))
    as (rows & _ & Heval).
  eexists. split; [exact Heval|]. simpl.
  rewrite forallb_forall. split.
  - intros Hall key link info Hlink Hinfo.
    apply elem_of_map_iter, list_elem_of_In, Hall in Hlink.
    by apply (proj1 (checkStatus_true_iff _ _) Hlink).
  - intros Hall [key link] Hin%list_elem_of_In%elem_of_map_iter.
    apply checkStatus_true_iff. intros info Hinfo. by eapply Hall.
Qed.

(** X12: [evalConstraint] stacks the contributions of bound links by
    increasing link key (the order of the [std::map]), one error
    coefficient and one Jacobian row per entry of [links_]. *)
Theorem evalConstraint_order (state : SolverState) (c : AvoidObstacles)
    (total : nat) :
  (∀ key link, links_ c !! key = Some link →
               bound total (state_joints state) link) →
  ∃ out its,
    evalConstraint state c = Some out
    ∧ (∀ key link, (key, link) ∈ its ↔ links_ c !! key = Some link)
    ∧ NoDup its.*1
    ∧ StronglySorted (λ a b, String.le a.1 b.1) its
    ∧ error out = (its ≫= λ it, calcError (AvoidObstaclesData_new state c) it.2)
    ∧ Forall2 (λ it row,
                 calcJacobian (AvoidObstaclesData_new state c) it.2 = Some row)
              its (jacobian out).
Proof.
  intros Hbound.
  destruct (evalLinks_exact _ _ ConstraintResults_new
              (bound_calcJacobian_is_Some state c total Hbound))
    as (rows & Hrows & Heval).
  eexists _, (map_iter (links_ c)). split; [exact Heval|].
  split; [intros; apply elem_of_map_iter|].
  split; [apply NoDup_fst_map_iter|].
  split; [apply map_iter_sorted|]. by split.
Qed.

Lemma evalLinks_quiet (cdata : AvoidObstaclesData) (total : nat)
    (its : list (string * LinkAvoidance)) (output : ConstraintResults) :
  Forall (λ it, num_robot_joints_ it.2 = Some total
                ∧ is_Some (num_inboard_joints_ it.2)
                ∧ distance_info_map_ cdata !! link_name_ it.2 = None) its →
  evalLinks cdata its output
  = Some {| error := error output ++ replicate (length its) None;
            jacobian := jacobian output
                        ++ replicate (length its) (replicate total 0);
            status := status output |}.
Proof.
  intros Hall. revert output.
  induction Hall as [|it its (Htotal & [inboard Hinboard] & Hfind) _ IH];
    intros output; simpl.
  - rewrite !app_nil_r. by destruct output.
  - unfold evalLink.
    rewrite (calcJacobian_not_found _ _ _ _ Htotal Hinboard Hfind). simpl.
    rewrite IH, (calcError_not_found _ _ Hfind), (checkStatus_not_found _ _ Hfind).
    simpl. by rewrite <- !app_assoc, andb_true_r.
Qed.

(** X13: when the snapshot has no proximity entry for any configured
    link, [evalConstraint] needs only the joint counts of the links (no
    solver, no joint values): every Jacobian row is the zero row, the
    status is [true], and every error coefficient is left unassigned. *)
Theorem evalConstraint_quiet (state : SolverState) (c : AvoidObstacles)
    (total : nat) :
  (∀ key link, links_ c !! key = Some link →
     num_robot_joints_ link = Some total
     ∧ is_Some (num_inboard_joints_ link)
     ∧ collision_robot state (link_models_ c) !! link_name_ link = None) →
  evalConstraint state c
  = Some {| error := replicate (size (links_ c)) None;
            jacobian := replicate (size (links_ c)) (replicate total 0);
            status := true |}.
Proof.
  intros Hquiet. unfold evalConstraint.
  rewrite (evalLinks_quiet _ total), length_map_iter; [done|].
  apply Forall_forall. intros [key link] Hin%elem_of_map_iter. by eapply Hquiet.
Qed.

(** * Further properties of loadParameters *)

(** With a link-name list, [loadParameters] is its loop run on the
    arrays it kept, from a constraint that differs from the given one by
    logged warnings only. *)
Lemma loadParameters_run (xml : XmlRpcValue) (c : AvoidObstacles)
    (link_names : list string) :
  xml_link_names xml = Some link_names →
  ∃ c4, links_ c4 = links_ c
    ∧ loadParameters xml c
      = loadLinks link_names
          (kept_array Amplitude xml link_names)
          (kept_array MinDistance xml link_names)
          (kept_array AvoidanceDistance xml link_names)
          (kept_array Weight xml link_names)
          (seq 0 (length link_names)) c4.
Proof.
  intros Hnames. unfold loadParameters. rewrite Hnames.
  destruct (readArray_spec Amplitude xml link_names c) as (c1 & -> & Hlinks1 & _).
  destruct (readArray_spec MinDistance xml link_names c1)
    as (c2 & -> & Hlinks2 & _).
  destruct (readArray_spec AvoidanceDistance xml link_names c2)
    as (c3 & -> & Hlinks3 & _).
  destruct (readArray_spec Weight xml link_names c3) as (c4 & -> & Hlinks4 & _).
  exists c4. split; [congruence | done].
Qed.

Lemma kept_arrays_sizes (xml : XmlRpcValue) (link_names : list string) (p : param) :
  arrs (kept_array Amplitude xml link_names)
       (kept_array MinDistance xml link_names)
       (kept_array AvoidanceDistance xml link_names)
       (kept_array Weight xml link_names) p = []
  ∨ length (arrs (kept_array Amplitude xml link_names)
                 (kept_array MinDistance xml link_names)
                 (kept_array AvoidanceDistance xml link_names)
                 (kept_array Weight xml link_names) p)
    = length link_names.
Proof. destruct p; apply kept_array_size. Qed.

(** X14: [loadParameters] always runs to its end: whatever the members
    of the XML struct and their lengths, it never indexes an array past
    its end and never sets a parameter of a link that is not
    registered. *)
Theorem loadParameters_total (xml : XmlRpcValue) (c : AvoidObstacles) :
  is_Some (loadParameters xml c).
Proof.
  destruct (xml_link_names xml) as [link_names|] eqn:Hnames.
  - destruct (loadParameters_run xml c link_names Hnames) as (c4 & _ & ->).
    destruct (loadLinks_prefix link_names _ _ _ _
                (kept_arrays_sizes xml link_names) c4 (length link_names))
      as (c' & -> & _); [done | by eexists].
  - unfold loadParameters. rewrite Hnames. by eexists.
Qed.

(** X15: [loadParameters] registers every listed link and leaves every
    link that is not listed exactly as it was. *)
Theorem loadParameters_frame (xml : XmlRpcValue) (c : AvoidObstacles)
    (link_names : list string) :
  xml_link_names xml = Some link_names →
  ∃ c', loadParameters xml c = Some c'
    ∧ (∀ name, name ∈ link_names → is_Some (links_ c' !! name))
    ∧ (∀ name, name ∉ link_names → links_ c' !! name = links_ c !! name).
Proof.
  intros Hnames.
  destruct (loadParameters_run xml c link_names Hnames) as (c4 & Hlinks & ->).
  destruct (loadLinks_prefix link_names _ _ _ _
              (kept_arrays_sizes xml link_names) c4 (length link_names))
    as (c' & -> & _ & Hout & Hin); [done|].
  exists c'. split; [done|]. split.
  - intros name (i & Hi)%list_elem_of_lookup.
    destruct (Hin name i) as (link & -> & _);
      [by eapply lookup_lt_Some | done | by eexists].
  - intros name Hnotin. rewrite Hout, Hlinks; [done|].
    intros i _ Hi. apply Hnotin, list_elem_of_lookup. eauto.
Qed.

(** X16: a parameter whose array is absent, or present with a length
    other than that of the link-name list, is not written: a listed link
    that was registered before the call keeps the value it had. *)
Theorem loadParameters_keeps_registered (p : param) (xml : XmlRpcValue)
    (c : AvoidObstacles) (link_names : list string) (name : string)
    (old : LinkAvoidance) :
  xml_link_names xml = Some link_names →
  (∀ arr, xml_member p xml = Some arr → length arr ≠ length link_names) →
  name ∈ link_names →
  links_ c !! name = Some old →
  ∃ c' link, loadParameters xml c = Some c'
    ∧ links_ c' !! name = Some link
    ∧ param_get p link = param_get p old.
Proof.
  intros Hnames Hsize (i & Hi)%list_elem_of_lookup Hold.
  destruct (loadParameters_links xml c link_names Hnames)
    as (c' & Hload & _ & Hlinks).
  destruct (Hlinks name i Hi) as (link & Hlink & Hparams).
  exists c', link. split; [done|]. split; [done|].
  destruct (Hparams p) as [Hkeep _]. rewrite Hkeep.
  - unfold base_link. by rewrite Hold.
  - unfold kept_array. destruct (xml_member p xml) as [arr|]; [|done].
    rewrite decide_True; [done|]. intros Heq. by apply (Hsize arr).
Qed.

Lemma readArray_match (p : param) (xml : XmlRpcValue) (link_names : list string)
    (c : AvoidObstacles) (arr : list R) :
  xml_member p xml = Some arr → length arr = length link_names →
  readArray p xml link_names c = (arr, c).
Proof.
  intros Hmember Hsize. unfold readArray. rewrite Hmember.
  case_decide; [congruence | done].
Qed.

(** X17: a configuration with distinct link names and all four arrays of
    the right length loads without a warning, and the link named at
    index [i] gets the four values at index [i]. *)
Theorem loadParameters_complete (xml : XmlRpcValue) (c : AvoidObstacles)
    (link_names : list string)
    (amplitude minimum_distance avoidance_distance weight : list R) :
  xml_link_names xml = Some link_names →
  xml_amplitude xml = Some amplitude →
  xml_minimum_distance xml = Some minimum_distance →
  xml_avoidance_distance xml = Some avoidance_distance →
  xml_weight xml = Some weight →
  length amplitude = length link_names →
  length minimum_distance = length link_names →
  length avoidance_distance = length link_names →
  length weight = length link_names →
  NoDup link_names →
  ∃ c', loadParameters xml c = Some c'
    ∧ log_ c' = log_ c
    ∧ ∀ i name, link_names !! i = Some name →
        ∃ link, links_ c' !! name = Some link
          ∧ amplitude !! i = Some (amplitude_ link)
          ∧ minimum_distance !! i = Some (min_distance_ link)
          ∧ avoidance_distance !! i = Some (avoidance_distance_ link)
          ∧ weight !! i = Some (weight_ link).
Proof.
  intros Hnames Hamp Hmin Havoid Hweight Hlen1 Hlen2 Hlen3 Hlen4 Hnodup.
  unfold loadParameters. rewrite Hnames.
  rewrite (readArray_match Amplitude xml link_names c amplitude) by done.
  rewrite (readArray_match MinDistance xml link_names c minimum_distance) by done.
  rewrite (readArray_match AvoidanceDistance xml link_names c avoidance_distance)
    by done.
  rewrite (readArray_match Weight xml link_names c weight) by done.
  destruct (loadLinks_prefix link_names amplitude minimum_distance
              avoidance_distance weight) with (c := c) (k := length link_names)
    as (c' & Hrun & Hlog & _ & Hin); [|done|].
  { intros []; by right. }
  exists c'. split; [done|]. split; [done|].
  intros i name Hi. apply lookup_lt_Some in Hi as Hlt.
  destruct (Hin name i Hlt Hi) as (link & Hlink & Hparams).
  exists link. split; [done|].
  assert (∀ j, (i < j < length link_names)%nat → link_names !! j ≠ Some name)
    as Hlast.
  { intros j Hj Hj'. pose proof (NoDup_lookup _ _ _ _ Hnodup Hi Hj'). lia. }
  assert (∀ p arr, arrs amplitude minimum_distance avoidance_distance weight p = arr →
                   length arr = length link_names →
                   arr !! i = Some (param_get p link)) as Hvalue.
  { intros p arr Harr Hlen.
    destruct (lookup_lt_is_Some_2 arr i) as [v Hv]; [lia|].
    rewrite Hv. f_equal. symmetry.
    apply (proj2 (Hparams p)); [done | by rewrite Harr]. }
  split; [by apply (Hvalue Amplitude)|].
  split; [by apply (Hvalue MinDistance)|].
  split; [by apply (Hvalue AvoidanceDistance)|].
  by apply (Hvalue Weight).
Qed.

Lemma arr_apply_preserved {X} (g : LinkAvoidance → X)
    (p : param) (arr : list R) (i : nat) (link : LinkAvoidance) :
  (∀ q v l, g (param_set q v l) = g l) → g (arr_apply p arr i link) = g link.
Proof. intros Hg. unfold arr_apply. by destruct (arr !! i). Qed.

(** A field that the setters do not write is, after the first [k] passes
    of the loop, what it was in the record the loop started from. *)
Lemma loadLinks_prefix_preserved {X} (g : LinkAvoidance → X)
    (link_names : list string)
    (amplitude minimum_distance avoidance_distance weight : list R)
    (c : AvoidObstacles) (k : nat) :
  (∀ q v l, g (param_set q v l) = g l) →
  (∀ p, arrs amplitude minimum_distance avoidance_distance weight p = []
        ∨ length (arrs amplitude minimum_distance avoidance_distance weight p)
          = length link_names) →
  (k ≤ length link_names)%nat →
  ∀ ck, loadLinks link_names amplitude minimum_distance avoidance_distance
          weight (seq 0 k) c = Some ck →
  ∀ name i, (i < k)%nat → link_names !! i = Some name →
    ∃ link, links_ ck !! name = Some link ∧ g link = g (base_link name c).
Proof.
  intros Hg Hsizes. induction k as [|k IH]; intros Hk ck Hrun name i Hi Hname;
    [lia|].
  destruct (loadLinks_prefix link_names _ _ _ _ Hsizes c k)
    as (ck0 & Hrun0 & _ & Hout & _); [lia|].
  destruct (lookup_lt_is_Some_2 link_names k) as [nk Hnk]; [lia|].
  destruct (loadLink_step link_names _ _ _ _ Hsizes k nk ck0 Hnk)
    as (c' & Hstep & _ & Hlinks').
  unfold loadLinks in Hrun, Hrun0. rewrite seq_S, foldl_snoc, Hrun0 in Hrun.
  simpl in Hrun. rewrite Hstep in Hrun. injection Hrun as <-.
  rewrite Hlinks'. destruct (decide (name = nk)) as [-> | Hne].
  - rewrite lookup_insert_eq. eexists. split; [done|].
    unfold step_link. rewrite !arr_apply_preserved by done.
    unfold base_link at 1.
    destruct (decide (nk ∈ take k link_names)) as [Hseen | Hnew].
    + apply elem_of_take in Hseen as (i' & Hi' & Hlt).
      destruct (IH ltac:(lia) ck0 Hrun0 nk i' Hlt Hi') as (link & -> & Hlink).
      done.
    + rewrite Hout; [done|]. intros i' Hlt Hi'.
      apply Hnew, elem_of_take. eauto.
  - assert (i ≠ k) as Hik by (intros ->; congruence).
    rewrite lookup_insert_ne by done. apply (IH ltac:(lia) ck0 Hrun0 name i); [lia|done].
Qed.

Lemma LinkAvoidance_ext (l1 l2 : LinkAvoidance) :
  (∀ p, param_get p l1 = param_get p l2) →
  link_name_ l1 = link_name_ l2 →
  num_robot_joints_ l1 = num_robot_joints_ l2 →
  num_inboard_joints_ l1 = num_inboard_joints_ l2 →
  jac_solver_ l1 = jac_solver_ l2 →
  l1 = l2.
Proof.
  intros Hparams. destruct l1, l2. simpl.
  pose proof (Hparams Amplitude). pose proof (Hparams MinDistance).
  pose proof (Hparams AvoidanceDistance). pose proof (Hparams Weight).
  simpl in *. congruence.
Qed.

Lemma last_occurrence (name : string) (l : list string) :
  name ∈ l →
  ∃ i, l !! i = Some name ∧ ∀ j, (i < j)%nat → l !! j ≠ Some name.
Proof.
  intros (l1 & l2 & -> & Hnotin)%list_elem_of_split_r.
  exists (length l1). split; [by apply list_lookup_middle|].
  intros j Hj Hlookup. apply Hnotin.
  rewrite lookup_app_r in Hlookup by lia.
  destruct (j - length l1)%nat as [|n] eqn:Hn; [lia|].
  simpl in Hlookup. apply list_elem_of_lookup. eauto.
Qed.

(** Everything that a call of [loadParameters] with a link-name list
    does to the link map. *)
Lemma loadParameters_effect (xml : XmlRpcValue) (c : AvoidObstacles)
    (link_names : list string) :
  xml_link_names xml = Some link_names →
  ∃ c', loadParameters xml c = Some c'
    ∧ (∀ name, name ∉ link_names → links_ c' !! name = links_ c !! name)
    ∧ (∀ name i, link_names !! i = Some name →
         ∃ link, links_ c' !! name = Some link
           ∧ link_name_ link = link_name_ (base_link name c)
           ∧ num_robot_joints_ link = num_robot_joints_ (base_link name c)
           ∧ num_inboard_joints_ link = num_inboard_joints_ (base_link name c)
           ∧ jac_solver_ link = jac_solver_ (base_link name c)
           ∧ ∀ p,
               (kept_array p xml link_names = [] →
                param_get p link = param_get p (base_link name c))
               ∧ (∀ v, (∀ j, (i < j)%nat → link_names !! j ≠ Some name) →
                       kept_array p xml link_names !! i = Some v →
                       param_get p link = v)).
Proof.
  intros Hnames.
  destruct (loadParameters_run xml c link_names Hnames) as (c4 & Hlinks & ->).
  pose proof (kept_arrays_sizes xml link_names) as Hsizes.
  destruct (loadLinks_prefix link_names _ _ _ _ Hsizes c4 (length link_names))
    as (c' & Hrun & _ & Hout & Hin); [done|].
  assert (∀ name, base_link name c4 = base_link name c) as Hbase.
  { intros name. unfold base_link. by rewrite Hlinks. }
  exists c'. split; [done|]. split.
  - intros name Hnotin. rewrite Hout, Hlinks; [done|].
    intros i _ Hi. apply Hnotin, list_elem_of_lookup. eauto.
  - intros name i Hi. apply lookup_lt_Some in Hi as Hlt.
    destruct (Hin name i Hlt Hi) as (link & Hlink & Hparams).
    exists link. split; [done|]. rewrite <- Hbase.
    assert (∀ X (g : LinkAvoidance → X),
              (∀ q v l, g (param_set q v l) = g l) →
              g link = g (base_link name c4)) as Hfield.
    { intros X g Hg.
      destruct (loadLinks_prefix_preserved g link_names _ _ _ _ c4
                  (length link_names) Hg Hsizes ltac:(done) c' Hrun name i Hlt Hi)
        as (link' & Hlink' & Hg').
      rewrite Hlink in Hlink'. by injection Hlink' as <-. }
    split; [by apply Hfield|]. split; [by apply Hfield|].
    split; [by apply Hfield|]. split; [by apply Hfield|].
    intros p. destruct (Hparams p) as [Hkeep Hset].
    assert (arrs (kept_array Amplitude xml link_names)
                 (kept_array MinDistance xml link_names)
                 (kept_array AvoidanceDistance xml link_names)
                 (kept_array Weight xml link_names) p
            = kept_array p xml link_names) as Harr by (by destruct p).
    rewrite Harr in Hkeep, Hset. split; [done|].
    intros v Hlast Hv. apply Hset; [|done]. intros j [Hj _]. by apply Hlast.
Qed.

(** X18: loading the same configuration a second time changes no link:
    the link map after two calls of [loadParameters] is the link map
    after one. *)
Theorem loadParameters_idempotent (xml : XmlRpcValue) (c : AvoidObstacles)
    (link_names : list string) :
  xml_link_names xml = Some link_names →
  ∃ c1 c2, loadParameters xml c = Some c1
    ∧ loadParameters xml c1 = Some c2
    ∧ links_ c2 = links_ c1.
Proof.
  intros Hnames.
  destruct (loadParameters_effect xml c link_names Hnames)
    as (c1 & Hload1 & _ & Hin1).
  destruct (loadParameters_effect xml c1 link_names Hnames)
    as (c2 & Hload2 & Hout2 & Hin2).
  exists c1, c2. split; [done|]. split; [done|].
  apply map_eq. intros name.
  destruct (decide (name ∈ link_names)) as [Hlisted | Hnot]; [|by apply Hout2].
  destruct (last_occurrence name link_names Hlisted) as (i & Hi & Hlast).
  destruct (Hin1 name i Hi) as (link1 & Hlink1 & _ & _ & _ & _ & Hparams1).
  destruct (Hin2 name i Hi)
    as (link2 & Hlink2 & Hname2 & Htotal2 & Hinboard2 & Hsolver2 & Hparams2).
  unfold base_link in Hname2, Htotal2, Hinboard2, Hsolver2, Hparams2.
  rewrite Hlink1 in Hname2, Htotal2, Hinboard2, Hsolver2, Hparams2.
  simpl in *. rewrite Hlink1, Hlink2. f_equal.
  apply LinkAvoidance_ext; try done.
  intros p. destruct (Hparams1 p) as [_ Hset1]. destruct (Hparams2 p) as [Hkeep2 Hset2].
  destruct (kept_array_size p xml link_names) as [Hempty | Hlen].
  - by apply Hkeep2.
  - destruct (lookup_lt_is_Some_2 (kept_array p xml link_names) i) as [v Hv].
    { rewrite Hlen. by eapply lookup_lt_Some. }
    by rewrite (Hset1 v Hlast Hv), (Hset2 v Hlast Hv).
Qed.

Lemma init_dom (ik : Constrained_IK) (c : AvoidObstacles) :
  dom (links_ (init ik c)) = dom (links_ c).
Proof.
  apply set_eq. intros key. rewrite !elem_of_dom, init_links.
  pose proof (bind_links_config ik (map_iter (links_ c)) (links_ c) key
                (NoDup_fst_map_iter _)
                (λ k l0, proj1 (elem_of_map_iter _ k l0))) as Hconfig.
  destruct (links_ c !! key) as [l|];
    destruct ((bind_links ik (map_iter (links_ c)) (links_ c)).1 !! key)
      as [l'|]; done.
Qed.

(** X19: links that are listed in the configuration are evaluated: after
    [loadParameters] on a constraint without links, and [init] against
    kinematics that resolve every sub-chain (with no more joints than
    the chain), [evalConstraint] returns one error coefficient and one
    Jacobian row for each of the distinct listed names. *)
Theorem configured_links_are_evaluated (xml : XmlRpcValue) (c : AvoidObstacles)
    (ik : Constrained_IK) (state : SolverState) (link_names : list string) :
  xml_link_names xml = Some link_names →
  NoDup link_names →
  links_ c = ∅ →
  (∀ name, is_Some (getSubChain ik name)) →
  (∀ name chain, getSubChain ik name = Some chain →
                 (getNrOfJoints chain ≤ numJoints ik)%nat) →
  length (state_joints state) = numJoints ik →
  ∃ c' out, loadParameters xml c = Some c'
    ∧ evalConstraint state (init ik c') = Some out
    ∧ length (error out) = length link_names
    ∧ length (jacobian out) = length link_names.
Proof.
  intros Hnames Hnodup Hempty Hresolve Hjoints Hstate.
  destruct (loadParameters_effect xml c link_names Hnames)
    as (c' & Hload & Hout & Hin).
  assert (dom (links_ c') = list_to_set link_names) as Hdom.
  { apply set_eq. intros name. rewrite elem_of_dom, elem_of_list_to_set. split.
    - intros Hsome. destruct (decide (name ∈ link_names)) as [|Hnot]; [done|].
      rewrite (Hout name Hnot), Hempty, lookup_empty in Hsome.
      by destruct Hsome.
    - intros (i & Hi)%list_elem_of_lookup.
      destruct (Hin name i Hi) as (link & -> & _). by eexists. }
  assert (size (links_ (init ik c')) = length link_names) as Hsize.
  { rewrite <- size_dom, init_dom, Hdom. by apply size_list_to_set. }
  assert (initialized_ (init ik c') = true) as Hok.
  { rewrite init_initialized. apply bind_links_true, Forall_forall.
    intros it _. apply Hresolve. }
  destruct (evalLinks_bound (AvoidObstaclesData_new state (init ik c'))
              (numJoints ik) (map_iter (links_ (init ik c'))) ConstraintResults_new)
    as (out & Hout' & Herr & Hjac & _).
  { apply Forall_forall. intros [key link] Hlink%elem_of_map_iter.
    by apply (init_bound ik c' (state_joints state) Hok Hjoints Hstate key). }
  exists c', out. rewrite length_map_iter, Hsize in Herr, Hjac.
  split; [done|]. split; [done|]. done.
Qed.

(** * Worked instances of the further properties *)

Lemma calcJacobian_opposite_direction_witness :
  ∃ row, calcJacobian (near_data (1 / 20)) example_link = Some row
         ∧ calcJacobian (scaled_data (-1) (1 / 20)) example_link
           = Some (Ropp <$> row).
Proof.
  apply (calcJacobian_opposite_direction (near_data (1 / 20))
           (scaled_data (-1) (1 / 20)) example_link (example_info (1 / 20))
           3 2 (ChainJntToJacSolver example_chain)).
  - reflexivity.
  - reflexivity.
  - reflexivity.
  - lia.
  - simpl. lia.
  - reflexivity.
  - apply near_data_lookup.
  - apply lookup_singleton_eq.
Defined.

Lemma one_link_resolves (key : string) (link : LinkAvoidance) :
  links_ one_link !! key = Some link →
  is_Some (getSubChain example_ik (link_name_ link)).
Proof. intros _. by eexists. Defined.

Lemma init_binds_every_link_witness :
  ∃ chain,
    getSubChain example_ik (link_name_ (LinkAvoidance_new "link_1")) = Some chain
    ∧ links_ (init example_ik one_link) !! "link_1"
      = Some (bind_ok (numJoints example_ik) chain (LinkAvoidance_new "link_1")).
Proof.
  apply (init_binds_every_link example_ik one_link one_link_resolves "link_1").
  rewrite one_link_links. apply lookup_singleton_eq.
Defined.

Lemma init_link_models_witness :
  link_names_ (init example_ik one_link)
  = match link_names_ one_link with
    | [] => getLinkNames example_ik
    | _ => link_names_ one_link
    end
  ∧ ("link_1" ∈ link_models_ (init example_ik one_link) ↔
     "link_1" ∈ link_models_ one_link
     ∨ ("link_1" ∈ getLinkModels example_ik
        ∧ "link_1" ∈ link_names_ (init example_ik one_link))).
Proof.
  exact (init_link_models example_ik one_link "link_1" one_link_resolves).
Defined.

Lemma two_links_lookup (key : string) (link : LinkAvoidance) :
  links_ two_links !! key = Some link →
  (key = "link_1" ∧ link = LinkAvoidance_new "link_1")
  ∨ (key = "link_2" ∧ link = LinkAvoidance_new "link_2").
Proof.
  change (links_ two_links)
    with (<["link_2" := LinkAvoidance_new "link_2"]>
            ({["link_1" := LinkAvoidance_new "link_1"]}
               : gmap string LinkAvoidance)).
  intros [[<- <-] | [_ [<- <-]%lookup_singleton_Some]]%lookup_insert_Some; auto.
Defined.

Lemma init_stops_at_first_failure_witness :
  initialized_ (init partial_ik two_links) = false
  ∧ links_ (init partial_ik two_links) !! "link_2"
    = Some (bind_failed (numJoints partial_ik) (LinkAvoidance_new "link_2"))
  ∧ (∀ key link, links_ two_links !! key = Some link →
       String.le key "link_2" → key ≠ "link_2" →
       ∃ chain, getSubChain partial_ik (link_name_ link) = Some chain
         ∧ links_ (init partial_ik two_links) !! key
           = Some (bind_ok (numJoints partial_ik) chain link))
  ∧ (∀ key, ¬ String.le key "link_2" →
       links_ (init partial_ik two_links) !! key = links_ two_links !! key).
Proof.
  apply (init_stops_at_first_failure partial_ik two_links "link_2"
           (LinkAvoidance_new "link_2")).
  - apply lookup_insert_eq.
  - reflexivity.
  - intros key link [[-> ->] | [-> ->]]%two_links_lookup _ Hne; [|done].
    by eexists.
Defined.

Lemma evalConstraint_status_iff_witness :
  ∃ out, evalConstraint near_state (init example_ik one_link) = Some out
    ∧ (status out = true ↔
       ∀ key link info,
         links_ (init example_ik one_link) !! key = Some link →
         collision_robot near_state (link_models_ (init example_ik one_link))
           !! link_name_ link = Some info →
         min_distance_ link <= distance info).
Proof.
  exact (evalConstraint_status_iff near_state (init example_ik one_link) 3
           init_example_ik_bound).
Defined.

Lemma evalConstraint_order_witness :
  ∃ out its,
    evalConstraint near_state (init example_ik one_link) = Some out
    ∧ (∀ key link, (key, link) ∈ its ↔
                   links_ (init example_ik one_link) !! key = Some link)
    ∧ NoDup its.*1
    ∧ StronglySorted (λ a b, String.le a.1 b.1) its
    ∧ error out
      = (its ≫= λ it,
           calcError (AvoidObstaclesData_new near_state
                        (init example_ik one_link)) it.2)
    ∧ Forall2 (λ it row,
                 calcJacobian (AvoidObstaclesData_new near_state
                                 (init example_ik one_link)) it.2 = Some row)
              its (jacobian out).
Proof.
  exact (evalConstraint_order near_state (init example_ik one_link) 3
           init_example_ik_bound).
Defined.

Lemma init_example_ik_quiet (key : string) (link : LinkAvoidance) :
  links_ (init example_ik one_link) !! key = Some link →
  num_robot_joints_ link = Some 3%nat
  ∧ is_Some (num_inboard_joints_ link)
  ∧ collision_robot quiet_state (link_models_ (init example_ik one_link))
      !! link_name_ link = None.
Proof.
  destruct init_one_link_example as [_ ->].
  intros [_ <-]%lookup_singleton_Some.
  split; [reflexivity|]. split; [by eexists | apply lookup_empty].
Defined.

Lemma evalConstraint_quiet_witness :
  evalConstraint quiet_state (init example_ik one_link)
  = Some {| error := replicate (size (links_ (init example_ik one_link))) None;
            jacobian := replicate (size (links_ (init example_ik one_link)))
                                  (replicate 3 0);
            status := true |}.
Proof.
  exact (evalConstraint_quiet quiet_state (init example_ik one_link) 3
           init_example_ik_quiet).
Defined.

Lemma loadParameters_frame_witness :
  ∃ c', loadParameters example_xml one_link = Some c'
    ∧ (∀ name, name ∈ ["link_1"; "link_2"] → is_Some (links_ c' !! name))
    ∧ (∀ name, name ∉ ["link_1"; "link_2"] →
               links_ c' !! name = links_ one_link !! name).
Proof.
  exact (loadParameters_frame example_xml one_link ["link_1"; "link_2"] eq_refl).
Defined.

Lemma loadParameters_keeps_registered_witness :
  ∃ c' link, loadParameters example_xml tuned = Some c'
    ∧ links_ c' !! "link_1" = Some link
    ∧ param_get Amplitude link = param_get Amplitude tuned_link.
Proof.
  apply (loadParameters_keeps_registered Amplitude example_xml tuned
           ["link_1"; "link_2"] "link_1" tuned_link).
  - reflexivity.
  - intros arr [= <-]. simpl. lia.
  - left.
  - apply lookup_insert_eq.
Defined.

Lemma two_names_NoDup : NoDup ["link_1"; "link_2"].
Proof.
  apply NoDup_cons. split.
  - intros [=]%list_elem_of_singleton.
  - apply NoDup_singleton.
Defined.

Lemma loadParameters_complete_witness :
  ∃ c', loadParameters full_xml AvoidObstacles_new = Some c'
    ∧ log_ c' = log_ AvoidObstacles_new
    ∧ ∀ i name, ["link_1"; "link_2"] !! i = Some name →
        ∃ link, links_ c' !! name = Some link
          ∧ [1 / 2; 1 / 3] !! i = Some (amplitude_ link)
          ∧ [1 / 5; 1 / 4] !! i = Some (min_distance_ link)
          ∧ [2 / 5; 1 / 2] !! i = Some (avoidance_distance_ link)
          ∧ [1; 2] !! i = Some (weight_ link).
Proof.
  apply (loadParameters_complete full_xml AvoidObstacles_new ["link_1"; "link_2"]
           [1 / 2; 1 / 3] [1 / 5; 1 / 4] [2 / 5; 1 / 2] [1; 2]);
    try reflexivity.
  exact two_names_NoDup.
Defined.

Lemma loadParameters_idempotent_witness :
  ∃ c1 c2, loadParameters example_xml AvoidObstacles_new = Some c1
    ∧ loadParameters example_xml c1 = Some c2
    ∧ links_ c2 = links_ c1.
Proof.
  exact (loadParameters_idempotent example_xml AvoidObstacles_new
           ["link_1"; "link_2"] eq_refl).
Defined.

Lemma configured_links_are_evaluated_witness :
  ∃ c' out, loadParameters full_xml AvoidObstacles_new = Some c'
    ∧ evalConstraint near_state (init example_ik c') = Some out
    ∧ length (error out) = length ["link_1"; "link_2"]
    ∧ length (jacobian out) = length ["link_1"; "link_2"].
Proof.
  apply (configured_links_are_evaluated full_xml AvoidObstacles_new example_ik
           near_state ["link_1"; "link_2"]).
  - reflexivity.
  - exact two_names_NoDup.
  - reflexivity.
  - intros name. by eexists.
  - intros name chain [= <-]. simpl. lia.
  - reflexivity.
Defined.

(** * The error bounds in the arithmetic of the program *)






